(** * Scheduled optimizer: a shallow embedding of [oeciml/torchmodules/optimizer.py]

    The file embeds the two schedule classes ([LinearSchedule],
    [CyclicalLinearSchedule]) and the wrapper [ScheduledOptimizer] and proves
    properties of their [step], [state_dict] and [load_state_dict] methods.

    Conventions of the embedding.
    - Python numbers are exact rationals ([Q]); integer counters ([idx],
      [num_epoch], [epochs_per_cycle], [steps_per_epoch]) are [Z].  Equality
      of computed numbers is numeric equality ([==] on [Q]), as Python's [==].
      Rounding of binary floating point is outside the model.
    - A raised exception is an [Err] result; the state reached before the
      exception is dropped.
    - A parameter group is a dictionary from keys to values ([gmap string
      value]).  Schedules are objects: they live in a store and groups hold
      references to them, so a schedule attached twice is one object. *)

From Stdlib Require Import QArith Lqa ZArith Lia.
From stdpp Require Import gmap strings list fin_maps.

Local Open Scope Q_scope.

(** ** Exceptions and results *)

Inductive error : Type :=
  | KeyError
  | TypeError
  | AttributeError
  | ZeroDivisionError
  | ValueError.

Inductive result (A : Type) : Type :=
  | Ok (a : A)
  | Err (e : error).

Arguments Ok {A} a.
Arguments Err {A} e.

Definition rbind {A B : Type} (r : result A) (k : A -> result B) : result B :=
  match r with
  | Ok a => k a
  | Err e => Err e
  end.

Notation "x <~ c ;; k" := (rbind c (fun x => k))
  (at level 100, c at next level, right associativity).

(** ** Values and parameter groups *)

Abbreviation loc := nat.

#[warnings="-register-all"]
Inductive value : Type :=
  | VNone
  | VNum (q : Q)
  | VRef (l : loc)
  | VList (vs : list value).

Abbreviation group := (gmap string value).

(** [group.get(key)]: the stored value, [None] when the key is absent. *)
Definition dict_get (g : group) (key : string) : value :=
  match g !! key with
  | Some v => v
  | None => VNone
  end.

(** [group[key]]: raises [KeyError] when the key is absent. *)
Definition dict_item (g : group) (key : string) : result value :=
  match g !! key with
  | Some v => Ok v
  | None => Err KeyError
  end.

(** [del group[key]]: raises [KeyError] when the key is absent. *)
Definition dict_del (g : group) (key : string) : result group :=
  match g !! key with
  | Some _ => Ok (delete key g)
  | None => Err KeyError
  end.

(** Modelled from the spec: [get_deep_attr] of [helpers/attr.py], which is
    not among the sources.  The spec describes it as a get by path into a
    group; a path is one key of the group dictionary here. *)
Definition get_deep_attr (g : group) (path : string) : result value :=
  dict_item g path.

(** Modelled from the spec: [set_deep_attr] of [helpers/attr.py], the
    matching set by path into a group. *)
Definition set_deep_attr (g : group) (path : string) (v : value) : group :=
  <[path := v]> g.

(** ** Arithmetic as Python performs it *)

(** An operand that is not a number makes the arithmetic raise [TypeError]. *)
Definition as_num (v : value) : result Q :=
  match v with
  | VNum q => Ok q
  | _ => Err TypeError
  end.

(** [x / y]: true division, [ZeroDivisionError] on a zero divisor. *)
Definition py_div (x y : Q) : result Q :=
  if Qeq_bool y 0 then Err ZeroDivisionError else Ok (x / y).

(** [x < y]. *)
Definition py_lt (x y : Q) : bool := negb (Qle_bool y x).

(** [a % b] on integers: floored remainder, [ZeroDivisionError] on zero. *)
Definition py_mod (a b : Z) : result Z :=
  if (b =? 0)%Z then Err ZeroDivisionError else Ok (a mod b)%Z.

(** ** class LinearSchedule *)

Module LinearSchedule.

Record t : Type := mk {
  path : string;
  start_value : Q;
  max_value : option Q;
  warmup : bool;
  warmup_rate : Q;
  total_steps : Q;
  idx : Z
}.

(** [__init__(total_steps, max_value=None, start_value=0.0, path="lr",
    warmup=True, warmup_rate=0.1)]. *)
Definition init (total_steps : Q) (max_value : option Q) (start_value : Q)
    (path : string) (warmup : bool) (warmup_rate : Q) : t :=
  {| path := path; start_value := start_value; max_value := max_value;
     warmup := warmup; warmup_rate := warmup_rate;
     total_steps := total_steps; idx := 0 |}.

Definition init_default (total_steps : Q) : t :=
  init total_steps None 0 "lr" true (1 # 10).

(** [self.idx = i]. *)
Definition set_idx (i : Z) (s : t) : t :=
  {| path := path s; start_value := start_value s; max_value := max_value s;
     warmup := warmup s; warmup_rate := warmup_rate s;
     total_steps := total_steps s; idx := i |}.

(** [self.max_value = m]. *)
Definition set_max_value (m : option Q) (s : t) : t :=
  {| path := path s; start_value := start_value s; max_value := m;
     warmup := warmup s; warmup_rate := warmup_rate s;
     total_steps := total_steps s; idx := idx s |}.

Definition state_dict (s : t) : gmap string Z := {[ "idx" := idx s ]}.

Definition load_state_dict (state : gmap string Z) (s : t) : result t :=
  match state !! "idx" with
  | Some i => Ok (set_idx i s)
  | None => Err KeyError
  end.

Definition warmup_steps (s : t) : Q := total_steps s * warmup_rate s.

(** The object held by [self.max_value] after the first two lines of
    [step]. *)
Definition resolve_max_value (s : t) (g : group) : result value :=
  match max_value s with
  | Some m => Ok (VNum m)
  | None => get_deep_attr g (path s)
  end.

(** The two branches of [step]: each returns [max_value] as a number and
    the computed [value]. *)
Definition warmup_branch (s : t) (mv : value) : result (Q * Q) :=
  progress <~ py_div (inject_Z (idx s)) (warmup_steps s) ;;
  m <~ as_num mv ;;
  Ok (m, start_value s + (m - start_value s) * progress).

Definition decay_branch (s : t) (mv : value) : result (Q * Q) :=
  progress <~ py_div (inject_Z (idx s) - warmup_steps s)
                     (total_steps s - warmup_steps s) ;;
  m <~ as_num mv ;;
  Ok (m, m + (0 - m) * progress).

Definition step (s : t) (g : group) : result (t * group) :=
  mv <~ resolve_max_value s g ;;
  mv' <~ (if py_lt (inject_Z (idx s)) (warmup_steps s)
          then warmup_branch s mv
          else decay_branch s mv) ;;
  let '(m, v) := mv' in
  Ok (set_idx (idx s + 1) (set_max_value (Some m) s),
      set_deep_attr g (path s) (VNum v)).

End LinearSchedule.

(** ** class CyclicalLinearSchedule *)

Module CyclicalLinearSchedule.

Record t : Type := mk {
  path : string;
  max_value : option Q;
  min_value : Q;
  epochs_per_cycle : Z;
  steps_per_epoch : Z;
  num_epoch : Z;
  idx : Z
}.

(** [__init__(steps_per_epoch, max_value=0.01, min_value=0.001,
    epochs_per_cycle=10, path="lr")]. *)
Definition init (steps_per_epoch : Z) (max_value : option Q) (min_value : Q)
    (epochs_per_cycle : Z) (path : string) : t :=
  {| path := path; max_value := max_value; min_value := min_value;
     epochs_per_cycle := epochs_per_cycle;
     steps_per_epoch := steps_per_epoch; num_epoch := 0; idx := 0 |}.

Definition init_default (steps_per_epoch : Z) : t :=
  init steps_per_epoch (Some (1 # 100)) (1 # 1000) 10 "lr".

Definition set_idx (i : Z) (s : t) : t :=
  {| path := path s; max_value := max_value s; min_value := min_value s;
     epochs_per_cycle := epochs_per_cycle s;
     steps_per_epoch := steps_per_epoch s; num_epoch := num_epoch s;
     idx := i |}.

Definition state_dict (s : t) : gmap string Z := {[ "idx" := idx s ]}.

Definition load_state_dict (state : gmap string Z) (s : t) : result t :=
  match state !! "idx" with
  | Some i => Ok (set_idx i s)
  | None => Err KeyError
  end.

Definition resolve_max_value (s : t) (g : group) : result value :=
  match max_value s with
  | Some m => Ok (VNum m)
  | None => get_deep_attr g (path s)
  end.

(** The epoch counter after the test
    [if self.idx > (self.num_epoch + 1) * self.steps_per_epoch]
    (the notice printed on that branch is not modelled). *)
Definition next_num_epoch (s : t) : Z :=
  if (idx s >? (num_epoch s + 1) * steps_per_epoch s)%Z
  then (num_epoch s + 1)%Z
  else num_epoch s.

Definition step (s : t) (g : group) : result (t * group) :=
  mv <~ resolve_max_value s g ;;
  m <~ as_num mv ;;
  slope <~ py_div (m - min_value s) (inject_Z (epochs_per_cycle s - 1)) ;;
  pos <~ py_mod (num_epoch s) (epochs_per_cycle s) ;;
  let v := m - slope * inject_Z pos in
  Ok ({| path := path s; max_value := Some m; min_value := min_value s;
         epochs_per_cycle := epochs_per_cycle s;
         steps_per_epoch := steps_per_epoch s;
         num_epoch := next_num_epoch s;
         idx := (idx s + 1)%Z |},
      set_deep_attr g (path s) (VNum v)).

End CyclicalLinearSchedule.

(** ** Schedule objects and the object store *)

(** The two classes share the [step] / [state_dict] / [load_state_dict]
    contract; a schedule object is one of the two. *)
Inductive schedule : Type :=
  | Linear (s : LinearSchedule.t)
  | Cyclical (s : CyclicalLinearSchedule.t).

Abbreviation store := (gmap loc schedule).

Definition schedule_path (sch : schedule) : string :=
  match sch with
  | Linear s => LinearSchedule.path s
  | Cyclical s => CyclicalLinearSchedule.path s
  end.

Definition schedule_idx (sch : schedule) : Z :=
  match sch with
  | Linear s => LinearSchedule.idx s
  | Cyclical s => CyclicalLinearSchedule.idx s
  end.

Definition schedule_step (sch : schedule) (g : group)
    : result (schedule * group) :=
  match sch with
  | Linear s =>
      r <~ LinearSchedule.step s g ;; Ok (Linear (fst r), snd r)
  | Cyclical s =>
      r <~ CyclicalLinearSchedule.step s g ;; Ok (Cyclical (fst r), snd r)
  end.

Definition schedule_state_dict (sch : schedule) : gmap string Z :=
  match sch with
  | Linear s => LinearSchedule.state_dict s
  | Cyclical s => CyclicalLinearSchedule.state_dict s
  end.

Definition schedule_load_state_dict (state : gmap string Z) (sch : schedule)
    : result schedule :=
  match sch with
  | Linear s =>
      s' <~ LinearSchedule.load_state_dict state s ;; Ok (Linear s')
  | Cyclical s =>
      s' <~ CyclicalLinearSchedule.load_state_dict state s ;; Ok (Cyclical s')
  end.

(** Method lookup on a value: only a reference to a schedule object of the
    store has the methods; anything else raises [AttributeError]. *)
Definition deref (h : store) (v : value) : result (loc * schedule) :=
  match v with
  | VRef l =>
      match h !! l with
      | Some sch => Ok (l, sch)
      | None => Err AttributeError
      end
  | _ => Err AttributeError
  end.

(** [schedule.step(group)]: the object and the group are updated in place. *)
Definition call_step (v : value) (h : store) (g : group)
    : result (store * group) :=
  o <~ deref h v ;;
  r <~ schedule_step (snd o) g ;;
  Ok (<[fst o := fst r]> h, snd r).

(** [schedule.state_dict()]. *)
Definition call_state_dict (h : store) (v : value) : result (gmap string Z) :=
  o <~ deref h v ;; Ok (schedule_state_dict (snd o)).

(** [schedule.load_state_dict(state)]. *)
Definition call_load_state_dict (v : value) (state : gmap string Z) (h : store)
    : result store :=
  o <~ deref h v ;;
  sch' <~ schedule_load_state_dict state (snd o) ;;
  Ok (<[fst o := sch']> h).

(** Iterating a value: only a list is iterable here. *)
Definition py_iter (v : value) : result (list value) :=
  match v with
  | VList vs => Ok vs
  | _ => Err TypeError
  end.

(** A list comprehension whose element expression may raise. *)
Fixpoint mapM {A B : Type} (f : A -> result B) (l : list A) : result (list B) :=
  match l with
  | [] => Ok []
  | a :: l' => b <~ f a ;; bs <~ mapM f l' ;; Ok (b :: bs)
  end.

(** [for schedule in schedules: schedule.step(group)]. *)
Fixpoint step_each (vs : list value) (h : store) (g : group)
    : result (store * group) :=
  match vs with
  | [] => Ok (h, g)
  | v :: vs' => r <~ call_step v h g ;; step_each vs' (fst r) (snd r)
  end.

(** [for schedule, schedule_state in zip(schedules, states):
       schedule.load_state_dict(schedule_state)]. *)
Fixpoint load_each (vs : list value) (states : list (gmap string Z)) (h : store)
    : result store :=
  match vs, states with
  | v :: vs', st :: states' =>
      h' <~ call_load_state_dict v st h ;; load_each vs' states' h'
  | _, _ => Ok h
  end.

(** ** class ScheduledOptimizer *)

Module ScheduledOptimizer.
Section Inner.

(** The inner optimizer is an external collaborator.  Its parameter
    storage and per-parameter buffers are an opaque state [S]; its
    [step(closure)] reads the groups, updates that state and returns the
    closure's loss (or [None]). *)
Variables (S closure loss : Type).
Variable optim_step : option closure -> list group -> S -> S * option loss.

Record optimizer : Type := mk_optimizer {
  param_groups : list group;
  state : S
}.

(** What [optim.state_dict()] returns: the state and one fresh dictionary
    per parameter group. *)
Record optim_state_dict : Type := mk_optim_state_dict {
  sd_state : S;
  sd_param_groups : list group
}.

(** Modelled from the spec: the inner optimizer's [state_dict] gives its
    full state, with copies of the parameter groups. *)
Definition inner_state_dict (o : optimizer) : optim_state_dict :=
  {| sd_state := state o; sd_param_groups := param_groups o |}.

(** Modelled from the spec: the inner optimizer's [load_state_dict]
    replaces the state and the group list by the saved ones; a different
    number of groups is refused. *)
Definition inner_load_state_dict (sd : optim_state_dict) (o : optimizer)
    : result optimizer :=
  if Nat.eqb (length (sd_param_groups sd)) (length (param_groups o))
  then Ok {| param_groups := sd_param_groups sd; state := sd_state sd |}
  else Err ValueError.

(** The Python heap as far as the wrapper sees it: the schedule objects
    and the inner optimizer held in [self.optim]. *)
Record t : Type := mk {
  heap : store;
  optim : optimizer
}.

(** The entries of the wrapper's state dictionary. *)
Inductive sdval : Type :=
  | SDOptim (o : optim_state_dict)
  | SDValues (l : list value)
  | SDSchedules (l : list (list (gmap string Z))).

(** [[group["schedules"]]] for a value that is not a list, then
    [list(group["schedules"])]. *)
Definition normalize (v : value) : list value :=
  match v with
  | VList vs => vs
  | _ => [v]
  end.

(** The body of the constructor's loop over the groups. *)
Definition prime_group (h : store) (g : group) : result (store * group) :=
  match g !! "schedules" with
  | Some v =>
      let vs := normalize v in
      step_each vs h (<["schedules" := VList vs]> g)
  | None => Ok (h, g)
  end.

Fixpoint prime_groups (gs : list group) (h : store)
    : result (store * list group) :=
  match gs with
  | [] => Ok (h, [])
  | g :: gs' =>
      r <~ prime_group h g ;;
      r' <~ prime_groups gs' (fst r) ;;
      Ok (fst r', snd r :: snd r')
  end.

(** [__init__(optim)], run on the heap [h]. *)
Definition init (h : store) (o : optimizer) : result t :=
  r <~ prime_groups (param_groups o) h ;;
  Ok {| heap := fst r;
        optim := {| param_groups := snd r; state := state o |} |}.

Definition state_dict (w : t) : result (gmap string sdval) :=
  let osd := inner_state_dict (optim w) in
  let lrs := map (fun g => dict_get g "lr") (param_groups (optim w)) in
  scheds <~ mapM (fun g => vs <~ py_iter (dict_get g "schedules") ;;
                           mapM (call_state_dict (heap w)) vs)
                 (param_groups (optim w)) ;;
  stripped <~ mapM (fun g => dict_del g "schedules") (sd_param_groups osd) ;;
  Ok (<["optim" := SDOptim {| sd_state := sd_state osd;
                              sd_param_groups := stripped |}]>
      (<["lr" := SDValues lrs]>
      (<["schedules" := SDSchedules scheds]> ∅))).

Definition sd_optim (sd : gmap string sdval) : result optim_state_dict :=
  match sd !! "optim" with
  | Some (SDOptim o) => Ok o
  | Some _ => Err TypeError
  | None => Err KeyError
  end.

Definition sd_schedules (sd : gmap string sdval)
    : result (list (list (gmap string Z))) :=
  match sd !! "schedules" with
  | Some (SDSchedules l) => Ok l
  | Some _ => Err TypeError
  | None => Err KeyError
  end.

Definition sd_lr (sd : gmap string sdval) : result (list value) :=
  match sd !! "lr" with
  | Some (SDValues l) => Ok l
  | Some _ => Err TypeError
  | None => Err KeyError
  end.

(** The loop of [load_state_dict] over the four zipped lists; groups past
    the shortest list are left as they are. *)
Fixpoint restore_groups (gs : list group) (scheds : list value)
    (states : list (list (gmap string Z))) (lrs : list value) (h : store)
    : result (store * list group) :=
  match gs, scheds, states, lrs with
  | g :: gs', sv :: scheds', sts :: states', lr :: lrs' =>
      let g1 := <["schedules" := sv]> g in
      vs <~ py_iter sv ;;
      h' <~ load_each vs sts h ;;
      let g2 := <["lr" := lr]> g1 in
      r <~ restore_groups gs' scheds' states' lrs' h' ;;
      Ok (fst r, g2 :: snd r)
  | _, _, _, _ => Ok (h, gs)
  end.

Definition load_state_dict (sd : gmap string sdval) (w : t) : result t :=
  optim_schedules <~ mapM (fun g => dict_item g "schedules")
                          (param_groups (optim w)) ;;
  osd <~ sd_optim sd ;;
  o' <~ inner_load_state_dict osd (optim w) ;;
  states <~ sd_schedules sd ;;
  lrs <~ sd_lr sd ;;
  r <~ restore_groups (param_groups o') optim_schedules states lrs (heap w) ;;
  Ok {| heap := fst r;
        optim := {| param_groups := snd r; state := state o' |} |}.

(** The body of the loop of [step] over the groups. *)
Definition step_group (h : store) (g : group) : result (store * group) :=
  match g !! "schedules" with
  | Some v => vs <~ py_iter v ;; step_each vs h g
  | None => Ok (h, g)
  end.

Fixpoint step_groups (gs : list group) (h : store)
    : result (store * list group) :=
  match gs with
  | [] => Ok (h, [])
  | g :: gs' =>
      r <~ step_group h g ;;
      r' <~ step_groups gs' (fst r) ;;
      Ok (fst r', snd r :: snd r')
  end.

(** [step(closure)]: the new heap and the value the call returns. *)
Definition step (c : option closure) (w : t) : result (t * option loss) :=
  let inner := optim_step c (param_groups (optim w)) (state (optim w)) in
  r <~ step_groups (param_groups (optim w)) (heap w) ;;
  Ok ({| heap := fst r;
         optim := {| param_groups := snd r; state := fst inner |} |},
      None).

(** A training loop: one [step] per closure. *)
Fixpoint run (cs : list (option closure)) (w : t) : result t :=
  match cs with
  | [] => Ok w
  | c :: cs' => r <~ step c w ;; run cs' (fst r)
  end.

(** The property [param_groups]: getter and setter go to the inner
    optimizer. *)
Definition get_param_groups (w : t) : list group := param_groups (optim w).

Definition set_param_groups (value : list group) (w : t) : t :=
  {| heap := heap w;
     optim := {| param_groups := value; state := state (optim w) |} |}.

(** The property [state]: getter and setter go to the inner optimizer. *)
Definition get_state (w : t) : S := state (optim w).

Definition set_state (value : S) (w : t) : t :=
  {| heap := heap w;
     optim := {| param_groups := param_groups (optim w); state := value |} |}.

(** [zero_grad()] is the inner optimizer's, which clears gradients held in
    its opaque state. *)
Variable optim_zero_grad : S -> S.

Definition zero_grad (w : t) : t :=
  {| heap := heap w;
     optim := {| param_groups := param_groups (optim w);
                 state := optim_zero_grad (state (optim w)) |} |}.

End Inner.

Arguments mk_optimizer {S} _ _.
Arguments param_groups {S} _.
Arguments state {S} _.
Arguments mk_optim_state_dict {S} _ _.
Arguments sd_state {S} _.
Arguments sd_param_groups {S} _.
Arguments inner_state_dict {S} _.
Arguments inner_load_state_dict {S} _ _.
Arguments mk {S} _ _.
Arguments heap {S} _.
Arguments optim {S} _.
Arguments SDOptim {S} _.
Arguments SDValues {S} _.
Arguments SDSchedules {S} _.
Arguments init {S} _ _.
Arguments state_dict {S} _.
Arguments sd_optim {S} _.
Arguments sd_schedules {S} _.
Arguments sd_lr {S} _.
Arguments load_state_dict {S} _ _.
Arguments step {S closure loss} _ _ _.
Arguments run {S closure loss} _ _ _.
Arguments get_param_groups {S} _.
Arguments set_param_groups {S} _ _.
Arguments get_state {S} _.
Arguments set_state {S} _ _.
Arguments zero_grad {S} _ _.

End ScheduledOptimizer.

(** ** Observations used in the statements *)

(** The number found under [key] in the group a [step] call returns: the
    value the call wrote when [key] is the schedule's path. *)
Definition written_value {A : Type} (key : string) (r : result (A * group))
    : option Q :=
  match r with
  | Ok (_, g) =>
      match g !! key with
      | Some (VNum v) => Some v
      | _ => None
      end
  | Err _ => None
  end.


(** What [state_dict] needs of a group: a [schedules] entry that is a list
    of references to schedule objects. *)
Definition carries_schedules (h : store) (g : group) : Prop :=
  exists vs, g !! "schedules" = Some (VList vs)
             /\ Forall (fun v => exists o, deref h v = Ok o) vs.

(** The schedules the constructor steps for a group. *)
Definition attached (g : group) : list value :=
  match g !! "schedules" with
  | Some v => ScheduledOptimizer.normalize v
  | None => []
  end.

(** Two groups that agree on every key, except that a missing [lr] on one
    side may be an [lr] bound to [None] on the other: [group.get] cannot tell
    them apart. *)
Definition group_agree (g g' : group) : Prop :=
  (forall k, k <> "lr" -> g !! k = g' !! k)
  /\ dict_get g "lr" = dict_get g' "lr".

(** The target fields of the schedule objects at the locations [ls]. *)
Definition paths_of (h : store) (ls : list loc) : list string :=
  map (fun l => match h !! l with
                | Some sch => schedule_path sch
                | None => ""%string
                end) ls.

(** A schedule object as the constructor's priming expects it: a fresh
    object (index 0) whose target field is not the [schedules] entry itself
    and whose [step] on the group [g] writes a number. *)
Definition fresh_in (h : store) (g : group) (l : loc) : Prop :=
  exists sch,
    h !! l = Some sch
    /\ schedule_idx sch = 0%Z
    /\ schedule_path sch <> "schedules"
    /\ is_Some (written_value (schedule_path sch) (schedule_step sch g)).

(** What priming does to the object at [l] and to its target field, given
    the heap [h] and the group [g0] before priming and the heap [h'] and the
    group [g'] after it: the index has advanced by one and the field holds
    the value the object's [step] computes on [g0]. *)
Definition primed (h h' : store) (g0 g' : group) (l : loc) : Prop :=
  forall sch,
    h !! l = Some sch ->
    exists sch' v,
      h' !! l = Some sch'
      /\ schedule_idx sch' = (schedule_idx sch + 1)%Z
      /\ written_value (schedule_path sch) (schedule_step sch g0) = Some v
      /\ g' !! schedule_path sch = Some (VNum v).

(** ** Relations between two states of the heap *)

(** Every schedule attached to one of the groups [gs] is a
    [LinearSchedule]. *)
Definition linear_only (h : store) (gs : list group) : Prop :=
  forall g l c, g ∈ gs -> VRef l ∈ attached g -> h !! l <> Some (Cyclical c).

(** [self.idx = i] on either class. *)
Definition sched_set_idx (i : Z) (sch : schedule) : schedule :=
  match sch with
  | Linear s => Linear (LinearSchedule.set_idx i s)
  | Cyclical s => Cyclical (CyclicalLinearSchedule.set_idx i s)
  end.

(** A [LinearSchedule] whose [max_value] is set. *)
Definition resolved_linear (sch : schedule) : Prop :=
  match sch with
  | Linear s => is_Some (LinearSchedule.max_value s)
  | Cyclical _ => False
  end.

(** A value that refers to a resolved [LinearSchedule] of the heap. *)
Definition ok_ref (h : store) (v : value) : Prop :=
  exists l sch, v = VRef l /\ h !! l = Some sch /\ resolved_linear sch.

(** Every list of schedules carried by a group of [gs] holds such
    references only. *)
Definition groups_ok (h : store) (gs : list group) : Prop :=
  forall g vs, g ∈ gs -> g !! "schedules" = Some (VList vs) ->
               Forall (ok_ref h) vs.

(** The location [l] occurs in the list of schedules of a group of [gs]. *)
Definition attached_in (gs : list group) (l : loc) : Prop :=
  exists g vs, g ∈ gs /\ g !! "schedules" = Some (VList vs) /\ VRef l ∈ vs.

(** How an object may differ between two moments of a run: the class is
    kept, and a resolved [LinearSchedule] differs in its index at most. *)
Definition sched_le (sch sch' : schedule) : Prop :=
  match sch, sch' with
  | Linear s, Linear s' =>
      is_Some (LinearSchedule.max_value s) ->
      exists i, s' = LinearSchedule.set_idx i s
  | Cyclical _, Cyclical _ => True
  | _, _ => False
  end.

Definition evolves (h h' : store) : Prop :=
  forall l,
    h' !! l = h !! l
    \/ exists sch sch', h !! l = Some sch /\ h' !! l = Some sch'
                        /\ sched_le sch sch'.

(** How a group may differ between two moments of a run: an entry is
    unchanged or has been overwritten by a number. *)
Definition overwrites (g g' : group) : Prop :=
  forall k, g' !! k = g !! k \/ exists q, g' !! k = Some (VNum q).

(** Two outcomes that cannot be told apart: the same exception, or the same
    schedule objects and groups that agree. *)
Definition same_outcome {S : Type}
    (r r' : result (ScheduledOptimizer.t S)) : Prop :=
  match r, r' with
  | Ok a, Ok b =>
      ScheduledOptimizer.heap a = ScheduledOptimizer.heap b
      /\ Forall2 group_agree
           (ScheduledOptimizer.param_groups (ScheduledOptimizer.optim a))
           (ScheduledOptimizer.param_groups (ScheduledOptimizer.optim b))
  | Err e, Err e' => e = e'
  | _, _ => False
  end.

(** ** Iterated calls and counts *)

(** Successive [schedule.step(group)] calls on one object, one call per
    group of the list; the groups themselves are dropped. *)
Fixpoint step_on (gs : list group) (sch : schedule) : result schedule :=
  match gs with
  | [] => Ok sch
  | g :: gs' => r <~ schedule_step sch g ;; step_on gs' (fst r)
  end.

(** [n] successive [step(group)] calls of a cyclical schedule on the group
    it keeps writing to. *)
Fixpoint cyclical_steps (n : nat) (s : CyclicalLinearSchedule.t) (g : group)
    : result (CyclicalLinearSchedule.t * group) :=
  match n with
  | O => Ok (s, g)
  | Datatypes.S n' =>
      r <~ cyclical_steps n' s g ;;
      CyclicalLinearSchedule.step (fst r) (snd r)
  end.

(** How many entries of a list of schedules are the object at [l]. *)
Fixpoint ref_count (l : loc) (vs : list value) : Z :=
  match vs with
  | [] => 0
  | VRef l' :: vs' =>
      ((if Nat.eqb l l' then 1 else 0) + ref_count l vs')%Z
  | _ :: vs' => ref_count l vs'
  end.

(** How many times [step] calls the object at [l]: once per entry of the
    list of schedules of every group. *)
Fixpoint attach_count (l : loc) (gs : list group) : Z :=
  match gs with
  | [] => 0
  | g :: gs' =>
      (match g !! "schedules" with
       | Some (VList vs) => ref_count l vs
       | _ => 0
       end + attach_count l gs')%Z
  end.

(** The same count for the constructor, which takes a single schedule for a
    list of one. *)
Fixpoint init_count (l : loc) (gs : list group) : Z :=
  match gs with
  | [] => 0
  | g :: gs' => (ref_count l (attached g) + init_count l gs')%Z
  end.

(** The target fields of the schedules a group lists, read in the heap
    [h]. *)
Definition group_paths (h : store) (g : group) : list string :=
  match g !! "schedules" with
  | Some (VList vs) =>
      omap (fun v => match v with
                     | VRef l => schedule_path <$> h !! l
                     | _ => None
                     end) vs
  | _ => []
  end.

(** ** Example configurations *)

(** An inner optimizer without state whose [step] returns the loss 1. *)
Definition demo_inner (c : option unit) (gs : list group) (s : unit)
    : unit * option Q :=
  (s, Some 1).

(** One schedule object, [LinearSchedule(100)]. *)
Definition demo_heap : store :=
  {[ 0%nat := Linear (LinearSchedule.init_default 100) ]}.

(** A group with [lr = 1/1000] and that schedule, attached as a single
    object. *)
Definition demo_group : group :=
  <["lr" := VNum (1 # 1000)]> (<["schedules" := VRef 0]> ∅).

(** A group without schedules. *)
Definition plain_group : group := <["lr" := VNum (1 # 1000)]> ∅.

Definition demo_optim : ScheduledOptimizer.optimizer unit :=
  {| ScheduledOptimizer.param_groups := [demo_group];
     ScheduledOptimizer.state := tt |}.

(** The same schedule object attached to two groups. *)
Definition shared_optim : ScheduledOptimizer.optimizer unit :=
  {| ScheduledOptimizer.param_groups := [demo_group; demo_group];
     ScheduledOptimizer.state := tt |}.

(** A second group carries no schedule. *)
Definition mixed_optim : ScheduledOptimizer.optimizer unit :=
  {| ScheduledOptimizer.param_groups := [demo_group; plain_group];
     ScheduledOptimizer.state := tt |}.

(** ** Example wrappers *)

(** The value of a result that is known to be [Ok]. *)
Definition ok_or {A : Type} (d : A) (r : result A) : A :=
  match r with
  | Ok a => a
  | Err _ => d
  end.

Definition empty_wrapper : ScheduledOptimizer.t unit :=
  {| ScheduledOptimizer.heap := ∅;
     ScheduledOptimizer.optim :=
       {| ScheduledOptimizer.param_groups := [];
          ScheduledOptimizer.state := tt |} |}.

(** The wrapper constructed on [demo_optim], the same after two steps, the
    state saved then, and the first wrapper after loading that state. *)
Definition demo_wrapper : ScheduledOptimizer.t unit :=
  ok_or empty_wrapper (ScheduledOptimizer.init demo_heap demo_optim).

Definition demo_run : ScheduledOptimizer.t unit :=
  ok_or empty_wrapper (ScheduledOptimizer.run demo_inner [None; None] demo_wrapper).

Definition demo_saved : gmap string (ScheduledOptimizer.sdval unit) :=
  ok_or ∅ (ScheduledOptimizer.state_dict demo_run).

Definition demo_restored : ScheduledOptimizer.t unit :=
  ok_or empty_wrapper (ScheduledOptimizer.load_state_dict demo_saved demo_wrapper).

(** The wrapper constructed on [shared_optim], and the same after one
    step. *)
Definition shared_wrapper : ScheduledOptimizer.t unit :=
  ok_or empty_wrapper (ScheduledOptimizer.init demo_heap shared_optim).

Definition shared_stepped : ScheduledOptimizer.t unit :=
  fst (ok_or (empty_wrapper, None)
         (ScheduledOptimizer.step demo_inner None shared_wrapper)).

(** * Properties *)

(** ** Arithmetic helpers *)


Lemma py_lt_false (x y : Q) : py_lt x y = false <-> y <= x.
Proof.
  unfold py_lt. rewrite negb_false_iff. apply Qle_bool_iff.
Qed.

Lemma py_div_ok (x y : Q) : ~ y == 0 -> py_div x y = Ok (x / y).
Proof.
  intros H. unfold py_div. destruct (Qeq_bool y 0) eqn:E; [| reflexivity].
  apply Qeq_bool_iff in E. contradiction.
Qed.

Lemma py_div_zero (x y : Q) : y == 0 -> py_div x y = Err ZeroDivisionError.
Proof.
  intros H. unfold py_div. apply Qeq_bool_iff in H. now rewrite H.
Qed.

Lemma py_mod_ok (a b : Z) : b <> 0%Z -> py_mod a b = Ok (a mod b)%Z.
Proof.
  intros H. unfold py_mod. destruct (Z.eqb_spec b 0); [contradiction | reflexivity].
Qed.



(** ** LinearSchedule.step *)

Section LinearStep.
Import LinearSchedule.


(** The decay branch, when [total_steps] differs from [warmup_steps]. *)
Lemma step_decay (s : t) (g : group) (m : Q) :
  resolve_max_value s g = Ok (VNum m) ->
  warmup_steps s <= inject_Z (idx s) ->
  ~ total_steps s - warmup_steps s == 0 ->
  step s g =
    Ok (set_idx (idx s + 1) (set_max_value (Some m) s),
        <[path s := VNum (m + (0 - m)
                            * ((inject_Z (idx s) - warmup_steps s)
                               / (total_steps s - warmup_steps s)))]> g).
Proof.
  intros Hm Hge Hd. unfold step. rewrite Hm. cbn [rbind].
  apply py_lt_false in Hge. rewrite Hge.
  unfold decay_branch. rewrite (py_div_ok _ _ Hd). reflexivity.
Qed.

Lemma written_value_insert {A : Type} (a : A) (g : group) (p : string) (v : Q) :
  written_value p (Ok (a, <[p := VNum v]> g)) = Some v.
Proof. unfold written_value. now rewrite lookup_insert_eq. Qed.







(** C7 (amended): with [warmup_steps == 0] and a non-negative index, the
    test [idx < warmup_steps] is false, so [step] runs the decay branch and
    never divides by [warmup_steps]; the division it does run is by
    [total_steps - warmup_steps]: [step] raises [ZeroDivisionError] when
    [total_steps] is zero too, and otherwise writes
    [m * (1 - idx / total_steps)]. *)
Theorem linear_zero_warmup (s : t) (g : group) (m : Q) :
  warmup_steps s == 0 ->
  (0 <= idx s)%Z ->
  resolve_max_value s g = Ok (VNum m) ->
  py_lt (inject_Z (idx s)) (warmup_steps s) = false
  /\ step s g = (r <~ decay_branch s (VNum m) ;;
                 Ok (set_idx (idx s + 1) (set_max_value (Some m) s),
                     set_deep_attr g (path s) (VNum (snd r))))
  /\ (total_steps s == 0 -> step s g = Err ZeroDivisionError)
  /\ (~ total_steps s == 0 ->
      exists v,
        step s g = Ok (set_idx (idx s + 1) (set_max_value (Some m) s),
                       <[path s := VNum v]> g)
        /\ v == m * (1 - inject_Z (idx s) / total_steps s)).
Proof.
  intros Hws Hidx Hm.
  assert (Hq : 0 <= inject_Z (idx s))
    by (change 0 with (inject_Z 0); now rewrite <- Zle_Qle).
  assert (Hlt : py_lt (inject_Z (idx s)) (warmup_steps s) = false)
    by (apply py_lt_false; lra).
  split; [exact Hlt |].
  split.
  { unfold step. rewrite Hm. cbn [rbind]. rewrite Hlt.
    destruct (decay_branch s (VNum m)) as [[m' v] | e] eqn:E; [| reflexivity].
    cbn [rbind snd]. unfold decay_branch in E.
    destruct (py_div _ _); cbn in E; [| discriminate].
    injection E as <- <-. reflexivity. }
  split.
  - intros Hts. unfold step. rewrite Hm. cbn [rbind]. rewrite Hlt.
    unfold decay_branch. rewrite py_div_zero by lra. reflexivity.
  - intros Hts. eexists.
    split; [apply (step_decay s g m Hm); lra |].
    set (ws := warmup_steps s) in *. set (ts := total_steps s) in *.
    set (i := inject_Z (idx s)) in *.
    assert (E1 : (i - ws) / (ts - ws) == i / ts).
    { assert (Ea : i - ws == i) by lra. assert (Eb : ts - ws == ts) by lra.
      unfold Qdiv. now rewrite Ea, Eb. }
    rewrite E1. field. exact Hts.
Qed.

(** [LinearSchedule(100, max_value=1, warmup_rate=0)]: the first call runs
    the decay branch and writes 1. *)
Lemma linear_zero_warmup_witness :
  let s := init 100 (Some 1) 0 "lr" true 0 in
  py_lt (inject_Z (idx s)) (warmup_steps s) = false
  /\ exists v, written_value "lr" (step s ∅) = Some v /\ v == 1.
Proof.
  intros s.
  destruct (linear_zero_warmup s ∅ 1) as (Hb & _ & _ & Hv).
  - vm_compute. reflexivity.
  - vm_compute. discriminate.
  - reflexivity.
  - split; [exact Hb |].
    destruct Hv as (v & E & Hv); [vm_compute; discriminate |].
    exists v. split; [rewrite E; apply written_value_insert |].
    rewrite Hv. vm_compute. reflexivity.
Defined.

(** C7 as stated fails: [LinearSchedule(0)] has [warmup_steps == 0]; its
    first call, at index 0, skips the warmup branch and divides by
    [total_steps - warmup_steps = 0]. *)
Lemma linear_zero_total_divides_by_zero :
  let s := init_default 0 in
  let g : group := {[ "lr" := VNum (1 # 1000) ]} in
  warmup_steps s == 0
  /\ (0 <= idx s)%Z
  /\ step s g = Err ZeroDivisionError.
Proof.
  intros s g. split; [vm_compute; reflexivity |].
  split; [vm_compute; discriminate | vm_compute; reflexivity].
Qed.

End LinearStep.

(** ** CyclicalLinearSchedule.step *)

Section CyclicalStep.
Import CyclicalLinearSchedule.

Lemma inject_Z_nonzero (z : Z) : z <> 0%Z -> ~ inject_Z z == 0.
Proof.
  intros Hz E. apply Hz.
  apply (proj1 (inject_Z_injective z 0%Z)). exact E.
Qed.

(** The result of [step] once [max_value] is a number and neither divisor
    is zero. *)
Lemma step_cyclical (s : t) (g : group) (m : Q) :
  resolve_max_value s g = Ok (VNum m) ->
  epochs_per_cycle s <> 1%Z ->
  epochs_per_cycle s <> 0%Z ->
  step s g =
    Ok ({| path := path s; max_value := Some m; min_value := min_value s;
           epochs_per_cycle := epochs_per_cycle s;
           steps_per_epoch := steps_per_epoch s;
           num_epoch := next_num_epoch s; idx := (idx s + 1)%Z |},
        <[path s := VNum (m - (m - min_value s)
                               / inject_Z (epochs_per_cycle s - 1)
                             * inject_Z (num_epoch s mod epochs_per_cycle s))]> g).
Proof.
  intros Hm H1 H0. unfold step. rewrite Hm. cbn [rbind as_num].
  rewrite py_div_ok by (apply inject_Z_nonzero; lia).
  cbn [rbind]. rewrite py_mod_ok by exact H0. reflexivity.
Qed.



End CyclicalStep.

(** ** What the schedules persist *)

(** C8: for both classes [state_dict()] has the single key [idx], bound to
    the step index; [load_state_dict(state)] raises [KeyError] when [state]
    has no [idx] and otherwise changes the field [idx] only.  In particular
    the cyclical schedule's [num_epoch] is neither saved nor restored: a
    freshly constructed schedule loaded with the state of another one has
    the saved [idx] and [num_epoch = 0], whatever the epoch of the saved
    one. *)
Theorem schedules_persist_only_idx :
  (forall (sch : schedule) (k : string),
     schedule_state_dict sch !! k
     = if decide (k = "idx") then Some (schedule_idx sch) else None)
  /\ (forall (st : gmap string Z) (s : LinearSchedule.t),
        LinearSchedule.load_state_dict st s
        = match st !! "idx" with
          | Some i =>
              Ok {| LinearSchedule.path := LinearSchedule.path s;
                    LinearSchedule.start_value := LinearSchedule.start_value s;
                    LinearSchedule.max_value := LinearSchedule.max_value s;
                    LinearSchedule.warmup := LinearSchedule.warmup s;
                    LinearSchedule.warmup_rate := LinearSchedule.warmup_rate s;
                    LinearSchedule.total_steps := LinearSchedule.total_steps s;
                    LinearSchedule.idx := i |}
          | None => Err KeyError
          end)
  /\ (forall (st : gmap string Z) (s : CyclicalLinearSchedule.t),
        CyclicalLinearSchedule.load_state_dict st s
        = match st !! "idx" with
          | Some i =>
              Ok {| CyclicalLinearSchedule.path := CyclicalLinearSchedule.path s;
                    CyclicalLinearSchedule.max_value :=
                      CyclicalLinearSchedule.max_value s;
                    CyclicalLinearSchedule.min_value :=
                      CyclicalLinearSchedule.min_value s;
                    CyclicalLinearSchedule.epochs_per_cycle :=
                      CyclicalLinearSchedule.epochs_per_cycle s;
                    CyclicalLinearSchedule.steps_per_epoch :=
                      CyclicalLinearSchedule.steps_per_epoch s;
                    CyclicalLinearSchedule.num_epoch :=
                      CyclicalLinearSchedule.num_epoch s;
                    CyclicalLinearSchedule.idx := i |}
          | None => Err KeyError
          end)
  /\ (forall (old : CyclicalLinearSchedule.t) (steps_per_epoch : Z)
             (max_value : option Q) (min_value : Q) (epochs_per_cycle : Z)
             (path : string),
        exists s',
          CyclicalLinearSchedule.load_state_dict
            (CyclicalLinearSchedule.state_dict old)
            (CyclicalLinearSchedule.init steps_per_epoch max_value min_value
               epochs_per_cycle path)
          = Ok s'
          /\ CyclicalLinearSchedule.idx s' = CyclicalLinearSchedule.idx old
          /\ CyclicalLinearSchedule.num_epoch s' = 0%Z).
Proof.
  split.
  { intros sch k. destruct sch; cbn;
      unfold LinearSchedule.state_dict, CyclicalLinearSchedule.state_dict;
      case_decide; subst;
      (rewrite lookup_singleton_eq || rewrite lookup_singleton_ne); done. }
  split.
  { intros st s. unfold LinearSchedule.load_state_dict.
    destruct (st !! "idx"); reflexivity. }
  split.
  { intros st s. unfold CyclicalLinearSchedule.load_state_dict.
    destruct (st !! "idx"); reflexivity. }
  intros old spe mx mn epc p. eexists.
  unfold CyclicalLinearSchedule.load_state_dict,
    CyclicalLinearSchedule.state_dict.
  rewrite lookup_singleton_eq. split; [reflexivity |]. split; reflexivity.
Qed.

(** ** Comprehensions and loops *)

Lemma rbind_ok {A B : Type} (r : result A) (k : A -> result B) (b : B) :
  rbind r k = Ok b -> exists a, r = Ok a /\ k a = Ok b.
Proof. destruct r as [a | e]; cbn; [eauto | discriminate]. Qed.

Lemma mapM_Forall2 {A B : Type} (f : A -> result B) (l : list A) (l' : list B) :
  mapM f l = Ok l' <-> Forall2 (fun a b => f a = Ok b) l l'.
Proof.
  revert l'. induction l as [| a l IH]; intros l'; cbn.
  - split; [intros [= <-]; constructor | intros H; inversion H; reflexivity].
  - split.
    + intros H. apply rbind_ok in H as (b & Hb & H).
      apply rbind_ok in H as (bs & Hbs & [= <-]).
      constructor; [exact Hb | now apply IH].
    + intros H. inversion H as [| ? b ? bs Hb Hbs]; subst.
      rewrite Hb. cbn. apply IH in Hbs. rewrite Hbs. reflexivity.
Qed.

Lemma mapM_total {A B : Type} (f : A -> result B) (l : list A) :
  Forall (fun a => exists b, f a = Ok b) l -> exists l', mapM f l = Ok l'.
Proof.
  induction 1 as [| a l [b Hb] _ [l' IH]]; cbn; [eauto |].
  rewrite Hb, IH. cbn. eauto.
Qed.


Lemma mapM_first_error {A B : Type} (f : A -> result B) (l1 l2 : list A)
    (a : A) (e : error) :
  Forall (fun a => exists b, f a = Ok b) l1 ->
  f a = Err e ->
  mapM f (l1 ++ a :: l2) = Err e.
Proof.
  intros H Ha. induction H as [| a1 l1 [b Hb] _ IH]; cbn.
  - now rewrite Ha.
  - rewrite Hb. cbn. now rewrite IH.
Qed.

Lemma mapM_some_error {A B : Type} (f : A -> result B) (l : list A)
    (a : A) (e : error) :
  a ∈ l -> f a = Err e -> exists e', mapM f l = Err e'.
Proof.
  intros Hin Ha. induction l as [| a1 l IH]; [inversion Hin |].
  cbn. destruct (f a1) as [b |e1] eqn:E1; cbn; [| eauto].
  apply elem_of_cons in Hin as [-> | Hin]; [congruence |].
  destruct (IH Hin) as [e' ->]. cbn. eauto.
Qed.

(** ** The wrapper *)

Section Wrapper.
Import ScheduledOptimizer.
Context {S closure loss : Type}.
Variable optim_step : option closure -> list group -> S -> S * option loss.

(** C10: whatever the closure, a [step] call that returns returns [None];
    the inner optimizer's [step] has run with that closure, its state is the
    new inner state, and the loss it returned is dropped. *)
Theorem step_returns_none (c : option closure) (w w' : t S) (r : option loss) :
  step optim_step c w = Ok (w', r) ->
  r = None
  /\ state (optim w')
     = fst (optim_step c (param_groups (optim w)) (state (optim w))).
Proof.
  unfold step. intros H. apply rbind_ok in H as (x & _ & [= <- <-]).
  split; reflexivity.
Qed.

(** C9: when a group has no [schedules] entry, [state_dict] raises: the
    comprehension iterates [group.get("schedules")], which is [None]
    ([TypeError], the error raised when the groups before it are well
    formed), and [del group["schedules"]] would raise [KeyError] on the
    copy of that group; the constructor and [step] leave such a group
    alone.  So [state_dict] returns only if every group has the entry. *)
Theorem state_dict_needs_schedules (w : t S) (g : group) :
  g ∈ param_groups (optim w) ->
  g !! "schedules" = None ->
  (exists e, state_dict w = Err e)
  /\ (forall gs1 gs2,
        param_groups (optim w) = gs1 ++ g :: gs2 ->
        Forall (carries_schedules (heap w)) gs1 ->
        state_dict w = Err TypeError)
  /\ py_iter (dict_get g "schedules") = Err TypeError
  /\ dict_del g "schedules" = Err KeyError
  /\ (forall h, prime_group h g = Ok (h, g))
  /\ (forall h, step_group h g = Ok (h, g)).
Proof.
  intros Hin Hg.
  assert (Hiter : py_iter (dict_get g "schedules") = Err TypeError)
    by (unfold dict_get; now rewrite Hg).
  split.
  { unfold state_dict.
    destruct (mapM_some_error
                (fun g => vs <~ py_iter (dict_get g "schedules") ;;
                          mapM (call_state_dict (heap w)) vs)
                _ g TypeError Hin) as [e He].
    - now rewrite Hiter.
    - rewrite He. cbn. eauto. }
  split.
  { intros gs1 gs2 E Hgs1. unfold state_dict. rewrite E.
    rewrite (mapM_first_error _ gs1 gs2 g TypeError); [reflexivity | |].
    - eapply Forall_impl; [exact Hgs1 |].
      intros g1 (vs & Hvs & Hok). unfold dict_get. rewrite Hvs. cbn.
      apply mapM_total. eapply Forall_impl; [exact Hok |].
      intros v [o Ho]. unfold call_state_dict. rewrite Ho. cbn. eauto.
    - now rewrite Hiter. }
  split; [exact Hiter |].
  split; [unfold dict_del; now rewrite Hg |].
  split; intros h; [unfold prime_group | unfold step_group]; now rewrite Hg.
Qed.

Lemma call_state_dict_ok (h : store) (v : value) (st : gmap string Z) :
  call_state_dict h v = Ok st <->
  exists l sch, v = VRef l /\ h !! l = Some sch /\ st = schedule_state_dict sch.
Proof.
  unfold call_state_dict, deref. split.
  - destruct v as [| q | l | vs]; try discriminate.
    destruct (h !! l) as [sch |] eqn:E; [| discriminate].
    cbn. intros [= <-]. exists l, sch. auto.
  - intros (l & sch & -> & Hl & ->). now rewrite Hl.
Qed.

Lemma deref_ok (h : store) (v : value) (o : loc * schedule) :
  deref h v = Ok o <-> v = VRef (fst o) /\ h !! fst o = Some (snd o).
Proof.
  unfold deref. split.
  - destruct v as [| q | l | vs]; try discriminate.
    destruct (h !! l) as [sch |] eqn:E; [| discriminate].
    intros [= <-]. split; [reflexivity | exact E].
  - destruct o as [l sch]. cbn. intros [-> ->]. reflexivity.
Qed.

(** What a successful [state_dict] has computed. *)
Lemma state_dict_inv (w : t S) (sd : gmap string (sdval S)) :
  state_dict w = Ok sd ->
  exists scheds,
    sd = <["optim" := SDOptim
             {| sd_state := state (optim w);
                sd_param_groups :=
                  map (delete "schedules") (param_groups (optim w)) |}]>
         (<["lr" := SDValues (map (fun g => dict_get g "lr")
                                  (param_groups (optim w)))]>
         (<["schedules" := SDSchedules scheds]> ∅))
    /\ Forall2
         (fun g sts =>
            exists vs,
              g !! "schedules" = Some (VList vs)
              /\ Forall2
                   (fun v st => exists l sch, v = VRef l /\ heap w !! l = Some sch
                                              /\ st = schedule_state_dict sch)
                   vs sts)
         (param_groups (optim w)) scheds.
Proof.
  unfold state_dict. cbn [inner_state_dict sd_state sd_param_groups].
  intros H. apply rbind_ok in H as (scheds & Hs & H).
  apply rbind_ok in H as (stripped & Hst & [= <-]).
  assert (stripped = map (delete "schedules") (param_groups (optim w))) as ->.
  { apply mapM_Forall2 in Hst. clear -Hst.
    induction Hst as [| g g' gs gs' Hg _ IH]; [reflexivity |].
    cbn. rewrite IH. f_equal. unfold dict_del in Hg.
    destruct (g !! "schedules"); congruence. }
  exists scheds. split; [reflexivity |].
  apply mapM_Forall2 in Hs. eapply Forall2_impl; [exact Hs |].
  intros g sts Hg. cbn in Hg. apply rbind_ok in Hg as (vs & Hvs & Hsts).
  unfold dict_get, py_iter in Hvs.
  destruct (g !! "schedules") as [[| q | l | vs'] |]; try discriminate.
  injection Hvs as ->. exists vs. split; [reflexivity |].
  apply mapM_Forall2 in Hsts. eapply Forall2_impl; [exact Hsts |].
  intros v st Hv. now apply call_state_dict_ok.
Qed.



End Wrapper.

(** ** One schedule call *)

Section ScheduleCalls.

Lemma linear_resolve_local (s : LinearSchedule.t) (g g2 : group) :
  g2 !! LinearSchedule.path s = g !! LinearSchedule.path s ->
  LinearSchedule.resolve_max_value s g2 = LinearSchedule.resolve_max_value s g.
Proof.
  intros E. unfold LinearSchedule.resolve_max_value, get_deep_attr, dict_item.
  now rewrite E.
Qed.

Lemma cyclical_resolve_local (s : CyclicalLinearSchedule.t) (g g2 : group) :
  g2 !! CyclicalLinearSchedule.path s = g !! CyclicalLinearSchedule.path s ->
  CyclicalLinearSchedule.resolve_max_value s g2
  = CyclicalLinearSchedule.resolve_max_value s g.
Proof.
  intros E.
  unfold CyclicalLinearSchedule.resolve_max_value, get_deep_attr, dict_item.
  now rewrite E.
Qed.

(** A successful [step] writes one number under the schedule's path, keeps
    the path, advances the index by one, and would do the same on any group
    with the same content under that path. *)
Lemma schedule_step_inv (sch sch' : schedule) (g g' : group) :
  schedule_step sch g = Ok (sch', g') ->
  exists v,
    g' = <[schedule_path sch := VNum v]> g
    /\ schedule_path sch' = schedule_path sch
    /\ schedule_idx sch' = (schedule_idx sch + 1)%Z
    /\ (forall g2,
          g2 !! schedule_path sch = g !! schedule_path sch ->
          schedule_step sch g2 = Ok (sch', <[schedule_path sch := VNum v]> g2)).
Proof.
  destruct sch as [s | s]; cbn [schedule_step schedule_path schedule_idx];
    intros H; apply rbind_ok in H as ([s1 g1] & Hs & [= <- <-]);
    cbn [fst snd] in *.
  - unfold LinearSchedule.step in Hs.
    apply rbind_ok in Hs as (mv & Hmv & Hs).
    apply rbind_ok in Hs as ([m v] & Hb & [= <- <-]).
    exists v. split; [reflexivity |]. split; [reflexivity |].
    split; [reflexivity |].
    intros g2 E. unfold LinearSchedule.step.
    rewrite (linear_resolve_local s g g2 E), Hmv. cbn [rbind].
    rewrite Hb. reflexivity.
  - unfold CyclicalLinearSchedule.step in Hs.
    apply rbind_ok in Hs as (mv & Hmv & Hs).
    apply rbind_ok in Hs as (m & Hm & Hs).
    apply rbind_ok in Hs as (slope & Hsl & Hs).
    apply rbind_ok in Hs as (pos & Hpos & [= <- <-]).
    eexists. split; [reflexivity |]. split; [reflexivity |].
    split; [reflexivity |].
    intros g2 E. unfold CyclicalLinearSchedule.step.
    rewrite (cyclical_resolve_local s g g2 E), Hmv. cbn [rbind].
    rewrite Hm. cbn [rbind]. rewrite Hsl. cbn [rbind]. rewrite Hpos.
    reflexivity.
Qed.

Lemma call_step_inv (v : value) (h h' : store) (g g' : group) :
  call_step v h g = Ok (h', g') ->
  exists l sch sch',
    v = VRef l /\ h !! l = Some sch
    /\ schedule_step sch g = Ok (sch', g')
    /\ h' = <[l := sch']> h.
Proof.
  unfold call_step. intros H.
  apply rbind_ok in H as ([l sch] & Hd & H).
  apply rbind_ok in H as ([sch' g1] & Hs & [= <- <-]).
  apply deref_ok in Hd as [-> Hl]. cbn [fst snd] in *.
  exists l, sch, sch'. auto.
Qed.

Lemma call_step_ref (l : loc) (sch sch' : schedule) (h : store) (g g' : group) :
  h !! l = Some sch ->
  schedule_step sch g = Ok (sch', g') ->
  call_step (VRef l) h g = Ok (<[l := sch']> h, g').
Proof.
  intros Hl Hs. unfold call_step, deref. rewrite Hl. cbn. rewrite Hs.
  reflexivity.
Qed.

Lemma written_value_ok {A : Type} (k : string) (r : result (A * group)) (v : Q) :
  written_value k r = Some v ->
  exists a g, r = Ok (a, g) /\ g !! k = Some (VNum v).
Proof.
  unfold written_value. destruct r as [[a g] | e]; [| discriminate].
  destruct (g !! k) as [[| q | l | vs] |] eqn:E; try discriminate.
  intros [= <-]. exists a, g. auto.
Qed.

End ScheduleCalls.

(** ** The constructor *)

Section Priming.
Import ScheduledOptimizer.

Lemma elem_of_concat {A : Type} (x : A) (ls : list A) (ll : list (list A)) :
  x ∈ ls -> ls ∈ ll -> x ∈ concat ll.
Proof.
  rewrite !list_elem_of_In. intros Hx Hls. apply in_concat. eauto.
Qed.

Lemma Forall3_impl_elem {A B C : Type} (P Q : A -> B -> C -> Prop)
    (l : list A) (k : list B) (k' : list C) :
  Forall3 P l k k' ->
  (forall x y z, y ∈ k -> P x y z -> Q x y z) ->
  Forall3 Q l k k'.
Proof.
  induction 1 as [| x y z l k k' Hp _ IH]; intros Himp; constructor.
  - apply Himp; [left | exact Hp].
  - apply IH. intros x' y' z' Hin. apply Himp. now right.
Qed.

Lemma paths_of_insert_notin (h : store) (l : loc) (sch : schedule)
    (ls : list loc) :
  l ∉ ls -> paths_of (<[l := sch]> h) ls = paths_of h ls.
Proof.
  intros Hn. unfold paths_of. apply map_ext_in. intros l' Hin.
  rewrite lookup_insert_ne; [reflexivity |].
  intros ->. apply Hn. now apply list_elem_of_In.
Qed.

Lemma paths_of_agree (h h' : store) (ls : list loc) :
  (forall l, l ∈ ls -> h' !! l = h !! l) -> paths_of h' ls = paths_of h ls.
Proof.
  intros H. unfold paths_of. apply map_ext_in. intros l Hin.
  rewrite H; [reflexivity | now apply list_elem_of_In].
Qed.

Lemma elem_of_paths_of (h : store) (ls : list loc) (l : loc) (sch : schedule) :
  l ∈ ls -> h !! l = Some sch -> schedule_path sch ∈ paths_of h ls.
Proof.
  intros Hin Hl. unfold paths_of. apply list_elem_of_In, in_map_iff.
  exists l. rewrite Hl. split; [reflexivity | now apply list_elem_of_In].
Qed.

(** The loop over the schedules of one group, when the schedules are
    distinct objects with distinct target fields. *)
Lemma step_each_distinct (g0 : group) (ls : list loc) :
  forall (h : store) (g : group),
    NoDup ls ->
    NoDup (paths_of h ls) ->
    Forall (fun l =>
              exists sch,
                h !! l = Some sch
                /\ g !! schedule_path sch = g0 !! schedule_path sch
                /\ is_Some (written_value (schedule_path sch)
                              (schedule_step sch g0))) ls ->
    exists h' g',
      step_each (map VRef ls) h g = Ok (h', g')
      /\ (forall l, l ∉ ls -> h' !! l = h !! l)
      /\ (forall k, k ∉ paths_of h ls -> g' !! k = g !! k)
      /\ Forall (primed h h' g0 g') ls.
Proof.
  induction ls as [| l ls IH]; intros h g Hnd Hndp Hall.
  { exists h, g. cbn. repeat split; auto. }
  apply Forall_cons in Hall as [(sch & Hl & Hg & [v Hw]) Hall].
  apply NoDup_cons in Hnd as [Hnl Hnd].
  cbn [paths_of map] in Hndp. rewrite Hl in Hndp.
  apply NoDup_cons in Hndp as [Hnp Hndp].
  change (map _ ls) with (paths_of h ls) in Hnp, Hndp.
  destruct (written_value_ok _ _ _ Hw) as (sch1 & g1 & Hs & Hv).
  destruct (schedule_step_inv _ _ _ _ Hs) as (v' & Hg1 & Hp & Hi & Hloc).
  assert (v' = v) as ->.
  { subst g1. rewrite lookup_insert_eq in Hv. congruence. }
  specialize (Hloc g Hg).
  cbn [map step_each].
  rewrite (call_step_ref l sch sch1 h g _ Hl Hloc). cbn [rbind fst snd].
  destruct (IH (<[l := sch1]> h) (<[schedule_path sch := VNum v]> g))
    as (h' & g' & Hrun & Hfr & Hk & Hpost).
  - exact Hnd.
  - now rewrite paths_of_insert_notin.
  - apply Forall_forall. intros l' Hin.
    rewrite Forall_forall in Hall.
    destruct (Hall l' Hin) as (sch' & Hl' & Hg' & Hw').
    exists sch'. split.
    { rewrite lookup_insert_ne; [exact Hl' | intros ->; contradiction]. }
    split; [| exact Hw'].
    rewrite lookup_insert_ne; [exact Hg' |].
    intros E. apply Hnp. rewrite E. eapply elem_of_paths_of; eauto.
  - rewrite paths_of_insert_notin in Hk by exact Hnl.
    exists h', g'. split; [exact Hrun |].
    split.
    { intros l0 Hl0. apply not_elem_of_cons in Hl0 as [Hne Hl0].
      rewrite Hfr by exact Hl0. now rewrite lookup_insert_ne. }
    split.
    { intros k Hk0. cbn [paths_of map] in Hk0. rewrite Hl in Hk0.
      apply not_elem_of_cons in Hk0 as [Hne Hk0].
      rewrite Hk by exact Hk0. now rewrite lookup_insert_ne. }
    apply Forall_cons. split.
    + intros sch0 Hl0. assert (sch0 = sch) as -> by congruence.
      exists sch1, v. split; [rewrite (Hfr l Hnl); apply lookup_insert_eq |].
      split; [exact Hi |]. split; [exact Hw |].
      rewrite Hk by exact Hnp. apply lookup_insert_eq.
    + apply Forall_forall. intros l' Hin sch' Hl'.
      rewrite Forall_forall in Hpost. apply (Hpost l' Hin).
      rewrite lookup_insert_ne; [exact Hl' | intros ->; contradiction].
Qed.

Lemma prime_group_distinct (h : store) (g : group) (ls : list loc) :
  attached g = map VRef ls ->
  NoDup ls ->
  NoDup (paths_of h ls) ->
  Forall (fresh_in h g) ls ->
  exists h' g',
    prime_group h g = Ok (h', g')
    /\ (forall l, l ∉ ls -> h' !! l = h !! l)
    /\ match g !! "schedules" with
       | Some v => g' !! "schedules" = Some (VList (normalize v))
       | None => g' = g
       end
    /\ Forall (primed h h' g g') ls.
Proof.
  intros Hatt Hnd Hndp Hfresh. unfold prime_group, attached in *.
  destruct (g !! "schedules") as [v0 |] eqn:E.
  - rewrite Hatt.
    destruct (step_each_distinct g ls h (<["schedules" := VList (map VRef ls)]> g))
      as (h' & g' & Hrun & Hfr & Hk & Hpost); [exact Hnd | exact Hndp | |].
    + eapply Forall_impl; [exact Hfresh |].
      intros l (sch & Hl & _ & Hp & Hw). exists sch.
      split; [exact Hl |]. split; [| exact Hw].
      now rewrite lookup_insert_ne.
    + exists h', g'. split; [exact Hrun |]. split; [exact Hfr |].
      split; [| exact Hpost].
      rewrite Hk; [apply lookup_insert_eq |].
      intros Hin. unfold paths_of in Hin.
      apply list_elem_of_In, in_map_iff in Hin as (l & Hpl & Hl).
      apply list_elem_of_In in Hl. rewrite Forall_forall in Hfresh.
      destruct (Hfresh l Hl) as (sch & Hsl & _ & Hp & _).
      rewrite Hsl in Hpl. congruence.
  - symmetry in Hatt. apply map_eq_nil in Hatt as ->.
    exists h, g. repeat split; auto.
Qed.

Lemma prime_groups_distinct (gs : list group) :
  forall (cfg : list (list loc)) (h : store),
    Forall2 (fun g ls => attached g = map VRef ls
                         /\ Forall (fresh_in h g) ls
                         /\ NoDup (paths_of h ls)) gs cfg ->
    NoDup (concat cfg) ->
    exists h' gs',
      prime_groups gs h = Ok (h', gs')
      /\ (forall l, l ∉ concat cfg -> h' !! l = h !! l)
      /\ Forall3 (fun g ls g' =>
                    match g !! "schedules" with
                    | Some v => g' !! "schedules" = Some (VList (normalize v))
                    | None => g' = g
                    end
                    /\ Forall (primed h h' g g') ls) gs cfg gs'.
Proof.
  induction gs as [| g gs IH]; intros cfg h HF Hnd.
  { inversion HF; subst. exists h, []. cbn. repeat split; auto. constructor. }
  inversion HF as [| ? ls ? cfg' (Hatt & Hfresh & Hndp) HF']; subst.
  cbn [concat] in Hnd. apply NoDup_app in Hnd as (Hnd1 & Hdisj & Hnd2).
  destruct (prime_group_distinct h g ls Hatt Hnd1 Hndp Hfresh)
    as (h1 & g1 & Hrun1 & Hfr1 & Hnorm & Hpost1).
  assert (Hsame : forall ls', ls' ∈ cfg' -> forall l, l ∈ ls' -> h1 !! l = h !! l).
  { intros ls' Hls' l Hl. apply Hfr1. intros Hin.
    apply (Hdisj l Hin). exact (elem_of_concat l ls' cfg' Hl Hls'). }
  destruct (IH cfg' h1) as (h' & gs' & Hrun & Hfr & Hpost); [| exact Hnd2 |].
  { clear IH HF. induction HF' as [| g' ls' gs0 cfg0 (Ha & Hf & Hp) _ IH'];
      constructor.
    - split; [exact Ha |].
      assert (Hl : forall l, l ∈ ls' -> h1 !! l = h !! l)
        by (apply Hsame; left).
      split; [| now rewrite (paths_of_agree h h1 ls' Hl)].
      apply Forall_forall. intros l Hin. rewrite Forall_forall in Hf.
      destruct (Hf l Hin) as (sch & ?). exists sch. now rewrite Hl.
    - apply IH'.
      + intros x Hx Hc. apply (Hdisj x Hx). cbn [concat].
        apply elem_of_app. now right.
      + cbn [concat] in Hnd2. now apply NoDup_app in Hnd2.
      + intros ls0 Hls0. apply Hsame. now right. }
  exists h', (g1 :: gs'). split.
  { cbn [prime_groups]. rewrite Hrun1. cbn [rbind fst snd]. rewrite Hrun.
    reflexivity. }
  split.
  { intros l Hl. cbn [concat] in Hl. apply not_elem_of_app in Hl as [Hl1 Hl2].
    rewrite Hfr by exact Hl2. now apply Hfr1. }
  constructor.
  - split; [exact Hnorm |].
    apply Forall_forall. intros l Hin sch Hl.
    rewrite Forall_forall in Hpost1.
    destruct (Hpost1 l Hin sch Hl) as (sch' & v & H1 & H2 & H3 & H4).
    exists sch', v. split; [| auto].
    rewrite Hfr; [exact H1 |]. now apply Hdisj.
  - eapply Forall3_impl_elem; [exact Hpost |].
    intros g' ls' g'' Hls' [Hn Hp]. split; [exact Hn |].
    apply Forall_forall. intros l Hin sch Hl.
    rewrite Forall_forall in Hp. apply (Hp l Hin).
    now rewrite (Hsame ls' Hls' l Hin).
Qed.

Section Construction.
Context {S : Type}.

(** C4 (amended): the constructor gives every group that carries a
    [schedules] entry the list of its schedules (a single schedule becomes a
    list of one) and calls [step(group)] once per attachment.  When no
    schedule object is attached twice, every attached object is fresh
    (index 0) and steps without error on its group, and the schedules of one
    group target distinct fields other than [schedules], the constructor
    returns, every attached object has index 1, and every target field holds
    the value the object's [step] computes at index 0. *)
Theorem init_primes (h : store) (o : optimizer S) (cfg : list (list loc)) :
  Forall2 (fun g ls => attached g = map VRef ls
                       /\ Forall (fresh_in h g) ls
                       /\ NoDup (paths_of h ls)) (param_groups o) cfg ->
  NoDup (concat cfg) ->
  exists w,
    init h o = Ok w
    /\ state (optim w) = state o
    /\ (forall l, l ∉ concat cfg -> heap w !! l = h !! l)
    /\ Forall3
         (fun g ls g' =>
            match g !! "schedules" with
            | Some v => g' !! "schedules" = Some (VList (normalize v))
            | None => g' = g
            end
            /\ Forall
                 (fun l =>
                    forall sch,
                      h !! l = Some sch ->
                      exists sch' v,
                        heap w !! l = Some sch'
                        /\ schedule_idx sch' = 1%Z
                        /\ written_value (schedule_path sch)
                             (schedule_step sch g) = Some v
                        /\ g' !! schedule_path sch = Some (VNum v)) ls)
         (param_groups o) cfg (param_groups (optim w)).
Proof.
  intros HF Hnd.
  destruct (prime_groups_distinct (param_groups o) cfg h HF Hnd)
    as (h' & gs' & Hrun & Hfr & Hpost).
  eexists. unfold init. rewrite Hrun. cbn [rbind fst snd].
  split; [reflexivity |]. split; [reflexivity |]. split; [exact Hfr |].
  cbn [heap optim param_groups].
  assert (Hidx : Forall2 (fun (g : group) ls =>
                            Forall (fun l => forall sch, h !! l = Some sch ->
                                                schedule_idx sch = 0%Z) ls)
                         (param_groups o) cfg).
  { eapply Forall2_impl; [exact HF |]. intros g ls (_ & Hf & _).
    eapply Forall_impl; [exact Hf |].
    intros l (sch & Hl & Hi & _) sch0 Hl0. congruence. }
  clear HF Hrun Hnd Hfr.
  induction Hpost as [| g ls g' gs cfg gs' [Hn Hp] _ IH]; constructor.
  - apply Forall2_cons in Hidx as [Hi _]. split; [exact Hn |].
    apply Forall_forall. intros l Hin sch Hl.
    rewrite Forall_forall in Hp, Hi.
    destruct (Hp l Hin sch Hl) as (sch' & v & H1 & H2 & H3 & H4).
    exists sch', v. rewrite (Hi l Hin sch Hl) in H2. auto.
  - apply Forall2_cons in Hidx as [_ Hidx]. apply IH. exact Hidx.
Qed.

End Construction.

End Priming.

(** ** How the heap and the groups evolve *)

Section Evolution.
Import ScheduledOptimizer.

Lemma linear_set_idx_same (s : LinearSchedule.t) :
  LinearSchedule.set_idx (LinearSchedule.idx s) s = s.
Proof. now destruct s. Qed.

Lemma cyclical_set_idx_same (s : CyclicalLinearSchedule.t) :
  CyclicalLinearSchedule.set_idx (CyclicalLinearSchedule.idx s) s = s.
Proof. now destruct s. Qed.

Lemma sched_le_trans (a b c : schedule) :
  sched_le a b -> sched_le b c -> sched_le a c.
Proof.
  destruct a as [s | s], b as [s' | s'], c as [s'' | s'']; cbn; try tauto.
  intros H1 H2 Hm. destruct (H1 Hm) as [i ->].
  destruct (H2 Hm) as [j ->]. now exists j.
Qed.

Lemma evolves_refl (h : store) : evolves h h.
Proof. intros l. now left. Qed.

Lemma evolves_trans (h1 h2 h3 : store) :
  evolves h1 h2 -> evolves h2 h3 -> evolves h1 h3.
Proof.
  intros H12 H23 l.
  destruct (H23 l) as [E | (b & c & Hb & Hc & Hbc)].
  - rewrite E. apply H12.
  - destruct (H12 l) as [E | (a & b' & Ha & Hb' & Hab)].
    + right. exists b, c. rewrite <- E. auto.
    + right. exists a, c. split; [exact Ha |]. split; [exact Hc |].
      assert (b' = b) as -> by congruence.
      eapply sched_le_trans; eauto.
Qed.

Lemma overwrites_refl (g : group) : overwrites g g.
Proof. intros k. now left. Qed.

Lemma overwrites_trans (g1 g2 g3 : group) :
  overwrites g1 g2 -> overwrites g2 g3 -> overwrites g1 g3.
Proof.
  intros H12 H23 k. destruct (H23 k) as [E | Hq]; [| now right].
  rewrite E. apply H12.
Qed.

Lemma overwrites_list (g g' : group) (k : string) (vs : list value) :
  overwrites g g' -> g' !! k = Some (VList vs) -> g !! k = Some (VList vs).
Proof.
  intros H E. destruct (H k) as [E' | [q Hq]]; congruence.
Qed.

(** One [step] call relates the object before and after. *)
Lemma schedule_step_le (sch sch' : schedule) (g g' : group) :
  schedule_step sch g = Ok (sch', g') -> sched_le sch sch'.
Proof.
  destruct sch as [s | s]; cbn [schedule_step];
    intros H; apply rbind_ok in H as ([s1 g1] & Hs & [= <- <-]);
    cbn [fst snd sched_le]; [| trivial].
  unfold LinearSchedule.step in Hs.
  apply rbind_ok in Hs as (mv & Hmv & Hs).
  apply rbind_ok in Hs as ([m v] & Hb & [= <- <-]).
  intros [m0 Hm0]. exists (LinearSchedule.idx s + 1)%Z.
  unfold LinearSchedule.resolve_max_value in Hmv. rewrite Hm0 in Hmv.
  injection Hmv as <-.
  destruct (py_lt _ _);
    [unfold LinearSchedule.warmup_branch in Hb
    | unfold LinearSchedule.decay_branch in Hb];
    apply rbind_ok in Hb as (pr & _ & Hb); cbn in Hb;
    injection Hb as <- _; destruct s; cbn in *; now subst.
Qed.

Lemma linear_step_resolved (s s' : LinearSchedule.t) (g g' : group) :
  LinearSchedule.step s g = Ok (s', g') ->
  is_Some (LinearSchedule.max_value s').
Proof.
  unfold LinearSchedule.step. intros Hs.
  apply rbind_ok in Hs as (mv & Hmv & Hs).
  apply rbind_ok in Hs as ([m v] & Hb & [= <- <-]). cbn. eauto.
Qed.

Lemma call_step_evolves (v : value) (h h' : store) (g g' : group) :
  call_step v h g = Ok (h', g') ->
  evolves h h'
  /\ overwrites g g'
  /\ (forall l, h' !! l = h !! l \/ v = VRef l)
  /\ (forall l, v = VRef l -> (forall c, h !! l <> Some (Cyclical c)) ->
      ok_ref h' v).
Proof.
  intros H. destruct (call_step_inv _ _ _ _ _ H)
    as (l & sch & sch' & -> & Hl & Hs & ->).
  destruct (schedule_step_inv _ _ _ _ Hs) as (q & -> & _).
  pose proof (schedule_step_le _ _ _ _ Hs) as Hle.
  split.
  { intros l'. destruct (decide (l = l')) as [<- | Hne].
    - right. exists sch, sch'. rewrite lookup_insert_eq. auto.
    - left. now rewrite lookup_insert_ne. }
  split.
  { intros k. destruct (decide (schedule_path sch = k)) as [<- | Hne].
    - right. exists q. apply lookup_insert_eq.
    - left. now rewrite lookup_insert_ne. }
  split.
  { intros l'. destruct (decide (l = l')) as [<- | Hne]; [now right |].
    left. now rewrite lookup_insert_ne. }
  intros l' [= <-] Hnc. exists l, sch'.
  split; [reflexivity |]. split; [apply lookup_insert_eq |].
  destruct sch as [s | s]; [| now destruct (Hnc s)].
  cbn [schedule_step] in Hs.
  apply rbind_ok in Hs as ([s1 g1] & Hs & [= <- _]).
  cbn. eapply linear_step_resolved; eauto.
Qed.

Lemma ok_ref_evolves (h h' : store) (v : value) :
  evolves h h' -> ok_ref h v -> ok_ref h' v.
Proof.
  intros He (l & sch & -> & Hl & Hr).
  destruct (He l) as [E | (a & b & Ha & Hb & Hab)].
  - exists l, sch. rewrite E. auto.
  - assert (a = sch) as -> by congruence.
    exists l, b. split; [reflexivity |]. split; [exact Hb |].
    destruct sch as [s | s]; [| contradiction].
    destruct b as [s' | s']; [| contradiction].
    cbn in *. destruct (Hab Hr) as [i ->]. exact Hr.
Qed.

Lemma not_cyclical_evolves (h h' : store) (l : loc) :
  evolves h h' ->
  (forall c, h !! l <> Some (Cyclical c)) ->
  forall c, h' !! l <> Some (Cyclical c).
Proof.
  intros He Hn c Hc. destruct (He l) as [E | (a & b & Ha & Hb & Hab)].
  - apply (Hn c). congruence.
  - assert (b = Cyclical c) as -> by congruence.
    destruct a as [s | s]; [contradiction |]. now apply (Hn s).
Qed.

Lemma step_each_evolves (vs : list value) :
  forall (h h' : store) (g g' : group),
    step_each vs h g = Ok (h', g') ->
    evolves h h'
    /\ overwrites g g'
    /\ (forall l, h' !! l = h !! l \/ VRef l ∈ vs)
    /\ ((forall l, VRef l ∈ vs -> forall c, h !! l <> Some (Cyclical c)) ->
        Forall (ok_ref h') vs).
Proof.
  induction vs as [| v vs IH]; intros h h' g g' H; cbn [step_each] in H.
  { injection H as <- <-.
    split; [apply evolves_refl |]. split; [apply overwrites_refl |].
    split; [now left | constructor]. }
  apply rbind_ok in H as ([h1 g1] & H1 & H). cbn [fst snd] in H.
  destruct (call_step_evolves _ _ _ _ _ H1) as (He1 & Ho1 & Ht1 & Hk1).
  destruct (IH _ _ _ _ H) as (He & Ho & Ht & Hk).
  split; [eapply evolves_trans; eauto |].
  split; [eapply overwrites_trans; eauto |].
  split.
  { intros l. destruct (Ht l) as [E | Hin]; [| right; now right].
    rewrite E. destruct (Ht1 l) as [E1 | ->]; [now left | right; now left]. }
  intros Hn. constructor.
  - destruct (call_step_inv _ _ _ _ _ H1) as (l & ? & ? & -> & _).
    eapply ok_ref_evolves; [exact He |].
    apply (Hk1 l eq_refl). apply Hn. now left.
  - apply Hk. intros l Hin. eapply not_cyclical_evolves; [exact He1 |].
    apply Hn. now right.
Qed.

Lemma attached_in_cons (g : group) (gs : list group) (l : loc) :
  attached_in (g :: gs) l <-> attached_in [g] l \/ attached_in gs l.
Proof.
  unfold attached_in. split.
  - intros (g0 & vs & Hin & Hs & Hl).
    apply elem_of_cons in Hin as [-> | Hin].
    + left. exists g, vs. split; [now left | auto].
    + right. exists g0, vs. auto.
  - intros [(g0 & vs & Hin & Hs & Hl) | (g0 & vs & Hin & Hs & Hl)].
    + apply list_elem_of_singleton in Hin as ->.
      exists g, vs. split; [now left | auto].
    + exists g0, vs. split; [now right | auto].
Qed.

Lemma step_group_evolves (h h' : store) (g g' : group) :
  step_group h g = Ok (h', g') ->
  evolves h h'
  /\ overwrites g g'
  /\ (forall l, h' !! l = h !! l \/ attached_in [g] l).
Proof.
  unfold step_group. destruct (g !! "schedules") as [v |] eqn:E.
  - intros H. apply rbind_ok in H as (vs & Hvs & H).
    destruct v as [| q | l0 | vs0]; try discriminate. injection Hvs as ->.
    destruct (step_each_evolves _ _ _ _ _ H) as (He & Ho & Ht & _).
    split; [exact He |]. split; [exact Ho |].
    intros l. destruct (Ht l) as [El | Hin]; [now left | right].
    exists g, vs. split; [now left | auto].
  - intros [= <- <-].
    split; [apply evolves_refl |]. split; [apply overwrites_refl | now left].
Qed.

Lemma step_groups_evolves (gs : list group) :
  forall (h h' : store) (gs' : list group),
    step_groups gs h = Ok (h', gs') ->
    evolves h h'
    /\ Forall2 overwrites gs gs'
    /\ (forall l, h' !! l = h !! l \/ attached_in gs l).
Proof.
  induction gs as [| g gs IH]; intros h h' gs' H; cbn [step_groups] in H.
  { injection H as <- <-.
    split; [apply evolves_refl |]. split; [constructor | now left]. }
  apply rbind_ok in H as ([h1 g1] & H1 & H).
  apply rbind_ok in H as ([h2 gs2] & H2 & [= <- <-]). cbn [fst snd] in *.
  destruct (step_group_evolves _ _ _ _ H1) as (He1 & Ho1 & Ht1).
  destruct (IH _ _ _ H2) as (He2 & Ho2 & Ht2).
  split; [eapply evolves_trans; eauto |].
  split; [now constructor |].
  intros l. rewrite attached_in_cons.
  destruct (Ht2 l) as [E | Hin]; [| now right; right].
  rewrite E. destruct (Ht1 l) as [E1 | Hin]; [now left | now right; left].
Qed.

Lemma attached_in_overwrites (gs gs' : list group) (l : loc) :
  Forall2 overwrites gs gs' -> attached_in gs' l -> attached_in gs l.
Proof.
  intros HF (g' & vs & Hin & Hs & Hl).
  apply list_elem_of_lookup in Hin as [i Hi].
  destruct (Forall2_lookup_r _ _ _ _ _ HF Hi) as (g & Hg & Ho).
  exists g, vs. split; [eapply list_elem_of_lookup_2; eauto |].
  split; [eapply overwrites_list; eauto | exact Hl].
Qed.

Lemma groups_ok_evolves (h h' : store) (gs gs' : list group) :
  Forall2 overwrites gs gs' -> evolves h h' ->
  groups_ok h gs -> groups_ok h' gs'.
Proof.
  intros HF He Hok g' vs Hin Hs.
  apply list_elem_of_lookup in Hin as [i Hi].
  destruct (Forall2_lookup_r _ _ _ _ _ HF Hi) as (g & Hg & Ho).
  eapply Forall_impl; [| intros v; apply (ok_ref_evolves h h' v He)].
  apply (Hok g vs); [eapply list_elem_of_lookup_2; eauto |].
  eapply overwrites_list; eauto.
Qed.

Lemma Forall2_overwrites_refl (gs : list group) : Forall2 overwrites gs gs.
Proof. induction gs; constructor; [apply overwrites_refl | assumption]. Qed.

Lemma Forall2_overwrites_trans (gs1 gs2 gs3 : list group) :
  Forall2 overwrites gs1 gs2 -> Forall2 overwrites gs2 gs3 ->
  Forall2 overwrites gs1 gs3.
Proof.
  intros H. revert gs3. induction H as [| a b l k Hab _ IH]; intros gs3 H23;
    inversion H23; subst; constructor.
  - eapply overwrites_trans; eauto.
  - now apply IH.
Qed.

Section Runs.
Context {S closure loss : Type}.
Variable optim_step : option closure -> list group -> S -> S * option loss.

Lemma run_evolves (cs : list (option closure)) :
  forall (w w' : t S),
    run optim_step cs w = Ok w' ->
    evolves (heap w) (heap w')
    /\ Forall2 overwrites (param_groups (optim w)) (param_groups (optim w'))
    /\ (forall l, heap w' !! l = heap w !! l
                  \/ attached_in (param_groups (optim w)) l).
Proof.
  induction cs as [| c cs IH]; intros w w' H; cbn [run] in H.
  { injection H as <-. split; [apply evolves_refl |].
    split; [apply Forall2_overwrites_refl | now left]. }
  apply rbind_ok in H as ([w1 r] & H1 & H). cbn [fst] in H.
  unfold step in H1. apply rbind_ok in H1 as ([h1 gs1] & H1 & [= <- _]).
  destruct (step_groups_evolves _ _ _ _ H1) as (He1 & Ho1 & Ht1).
  destruct (IH _ _ H) as (He & Ho & Ht). cbn [heap optim param_groups fst snd] in *.
  split; [eapply evolves_trans; eauto |].
  split; [eapply Forall2_overwrites_trans; eauto |].
  intros l. destruct (Ht l) as [E | Hin].
  - rewrite E. apply Ht1.
  - right. eapply attached_in_overwrites; eauto.
Qed.

End Runs.

End Evolution.

(** ** Saving and restoring *)

Section RoundTrip.
Import ScheduledOptimizer.

(** After priming, the schedules a group lists are resolved. *)
Lemma prime_group_ok (h h' : store) (g g' : group) :
  prime_group h g = Ok (h', g') ->
  (forall l, VRef l ∈ attached g -> forall c, h !! l <> Some (Cyclical c)) ->
  evolves h h'
  /\ (forall vs, g' !! "schedules" = Some (VList vs) -> Forall (ok_ref h') vs).
Proof.
  unfold prime_group, attached. destruct (g !! "schedules") as [v0 |] eqn:E.
  - intros H Hn.
    destruct (step_each_evolves _ _ _ _ _ H) as (He & Ho & _ & Hk).
    split; [exact He |]. intros vs Hvs.
    apply (overwrites_list _ _ _ _ Ho) in Hvs.
    rewrite lookup_insert_eq in Hvs. injection Hvs as <-.
    apply Hk. exact Hn.
  - intros [= <- <-] _. split; [apply evolves_refl |].
    intros vs Hvs. congruence.
Qed.

Lemma prime_groups_ok (gs : list group) :
  forall (h h' : store) (gs' : list group),
    prime_groups gs h = Ok (h', gs') ->
    linear_only h gs ->
    evolves h h' /\ groups_ok h' gs'.
Proof.
  induction gs as [| g gs IH]; intros h h' gs' H Hlin; cbn [prime_groups] in H.
  { injection H as <- <-. split; [apply evolves_refl |].
    intros g vs Hin. inversion Hin. }
  apply rbind_ok in H as ([h1 g1] & H1 & H).
  apply rbind_ok in H as ([h2 gs2] & H2 & [= <- <-]). cbn [fst snd] in *.
  destruct (prime_group_ok _ _ _ _ H1) as (He1 & Hok1).
  { intros l Hl c. apply (Hlin g l c); [now left | exact Hl]. }
  destruct (IH _ _ _ H2) as (He2 & Hok2).
  { intros g0 l c Hin Hl. eapply not_cyclical_evolves; [exact He1 |].
    intros c'. apply (Hlin g0 l c'); [now right | exact Hl]. }
  split; [eapply evolves_trans; eauto |].
  intros g0 vs Hin Hs. apply elem_of_cons in Hin as [-> | Hin].
  - eapply Forall_impl; [apply (Hok1 vs Hs) |].
    intros v. now apply ok_ref_evolves.
  - now apply (Hok2 g0 vs).
Qed.

(** *** Stepping two groups that agree *)

(** A resolved [LinearSchedule] steps the same way on every group. *)
Lemma resolved_step (s : LinearSchedule.t) :
  is_Some (LinearSchedule.max_value s) ->
  exists r : result Q,
    forall g,
      schedule_step (Linear s) g
      = match r with
        | Ok v =>
            Ok (Linear (LinearSchedule.set_idx (LinearSchedule.idx s + 1) s),
                <[LinearSchedule.path s := VNum v]> g)
        | Err e => Err e
        end.
Proof.
  intros [m Hm].
  destruct (if py_lt (inject_Z (LinearSchedule.idx s))
                     (LinearSchedule.warmup_steps s)
            then LinearSchedule.warmup_branch s (VNum m)
            else LinearSchedule.decay_branch s (VNum m))
    as [[m' v] | e] eqn:Hb.
  - exists (Ok v). intros g. cbn [schedule_step]. unfold LinearSchedule.step.
    unfold LinearSchedule.resolve_max_value. rewrite Hm. cbn [rbind].
    rewrite Hb. cbn [rbind fst snd].
    assert (m' = m) as ->.
    { destruct (py_lt _ _);
        [unfold LinearSchedule.warmup_branch in Hb
        | unfold LinearSchedule.decay_branch in Hb];
        apply rbind_ok in Hb as (pr & _ & Hb); cbn in Hb; congruence. }
    destruct s; cbn in *; subst. reflexivity.
  - exists (Err e). intros g. cbn [schedule_step]. unfold LinearSchedule.step.
    unfold LinearSchedule.resolve_max_value. rewrite Hm. cbn [rbind].
    rewrite Hb. reflexivity.
Qed.

Lemma group_agree_insert (g g' : group) (k : string) (v : value) :
  group_agree g g' -> group_agree (<[k := v]> g) (<[k := v]> g').
Proof.
  intros [Hk Hlr]. split.
  - intros k' Hne. destruct (decide (k = k')) as [<- | Hkk].
    + now rewrite !lookup_insert_eq.
    + rewrite !lookup_insert_ne by exact Hkk. now apply Hk.
  - unfold dict_get in *. destruct (decide (k = "lr")) as [-> | Hkk].
    + now rewrite !lookup_insert_eq.
    + now rewrite !lookup_insert_ne by exact Hkk.
Qed.

Lemma step_each_sim (vs : list value) :
  forall (h : store) (g g' : group),
    Forall (ok_ref h) vs ->
    group_agree g g' ->
    match step_each vs h g, step_each vs h g' with
    | Ok r, Ok r' => fst r = fst r' /\ group_agree (snd r) (snd r')
    | Err e, Err e' => e = e'
    | _, _ => False
    end.
Proof.
  induction vs as [| v vs IH]; intros h g g' Hok Hag; cbn [step_each].
  { cbn. auto. }
  apply Forall_cons in Hok as [(l & sch & -> & Hl & Hr) Hok].
  destruct sch as [s | s]; [| contradiction]. cbn in Hr.
  destruct (resolved_step s Hr) as [r Hstep].
  unfold call_step, deref. rewrite Hl. cbn [rbind fst snd].
  rewrite !Hstep. destruct r as [q | e]; cbn [rbind fst snd]; [| reflexivity].
  apply IH; [| now apply group_agree_insert].
  eapply Forall_impl; [exact Hok |]. intros v. apply ok_ref_evolves.
  intros l'. destruct (decide (l = l')) as [<- | Hne].
  - right. eexists _, _. rewrite lookup_insert_eq.
    split; [exact Hl |]. split; [reflexivity |].
    cbn. intros _. eauto.
  - left. now rewrite lookup_insert_ne.
Qed.

Lemma step_group_sim (h : store) (g g' : group) :
  (forall vs, g !! "schedules" = Some (VList vs) -> Forall (ok_ref h) vs) ->
  group_agree g g' ->
  match step_group h g, step_group h g' with
  | Ok r, Ok r' => fst r = fst r' /\ group_agree (snd r) (snd r')
  | Err e, Err e' => e = e'
  | _, _ => False
  end.
Proof.
  intros Hok Hag. unfold step_group.
  rewrite <- (proj1 Hag "schedules") by discriminate.
  destruct (g !! "schedules") as [v |] eqn:E; [| cbn; auto].
  destruct v as [| q | l | vs]; cbn [py_iter rbind]; try reflexivity.
  apply step_each_sim; [now apply Hok | exact Hag].
Qed.

Lemma step_groups_sim (gs gs' : list group) :
  Forall2 group_agree gs gs' ->
  forall h,
    groups_ok h gs ->
    match step_groups gs h, step_groups gs' h with
    | Ok r, Ok r' => fst r = fst r' /\ Forall2 group_agree (snd r) (snd r')
    | Err e, Err e' => e = e'
    | _, _ => False
    end.
Proof.
  induction 1 as [| g g' gs gs' Hag _ IH]; intros h Hok; cbn [step_groups].
  { cbn. split; [reflexivity | constructor]. }
  assert (Hg : forall vs, g !! "schedules" = Some (VList vs) ->
                          Forall (ok_ref h) vs).
  { intros vs Hvs. apply (Hok g vs); [now left | exact Hvs]. }
  pose proof (step_group_sim h g g' Hg Hag) as Hsim.
  destruct (step_group h g) as [[h1 g1] | e] eqn:E1;
    destruct (step_group h g') as [[h1' g1'] | e'] eqn:E1';
    cbn [rbind fst snd] in *; try contradiction; [| exact Hsim].
  destruct Hsim as [<- Hag1].
  destruct (step_group_evolves _ _ _ _ E1) as (He & _ & _).
  assert (Hok1 : groups_ok h1 gs).
  { intros g0 vs Hin Hs. eapply Forall_impl.
    - apply (Hok g0 vs); [now right | exact Hs].
    - intros v. now apply ok_ref_evolves. }
  specialize (IH h1 Hok1).
  destruct (step_groups gs h1) as [[h2 gs2] | e] eqn:E2;
    destruct (step_groups gs' h1) as [[h2' gs2'] | e'] eqn:E2';
    cbn [rbind fst snd] in *; try contradiction; [| exact IH].
  destruct IH as [<- Hag2]. split; [reflexivity | now constructor].
Qed.

(** *** Restoring the schedule objects *)

Lemma sched_set_idx_same (sch : schedule) :
  sched_set_idx (schedule_idx sch) sch = sch.
Proof.
  destruct sch as [s | s]; cbn;
    [now rewrite linear_set_idx_same | now rewrite cyclical_set_idx_same].
Qed.

Lemma schedule_idx_set_idx (i : Z) (sch : schedule) :
  schedule_idx (sched_set_idx i sch) = i.
Proof. now destruct sch. Qed.

Lemma load_saved_state (sch sch2 : schedule) :
  schedule_load_state_dict (schedule_state_dict sch2) sch
  = Ok (sched_set_idx (schedule_idx sch2) sch).
Proof.
  destruct sch as [s | s]; cbn [schedule_load_state_dict sched_set_idx];
    [unfold LinearSchedule.load_state_dict
    | unfold CyclicalLinearSchedule.load_state_dict];
    destruct sch2 as [s2 | s2]; cbn [schedule_state_dict schedule_idx];
    unfold LinearSchedule.state_dict, CyclicalLinearSchedule.state_dict;
    rewrite lookup_singleton_eq; reflexivity.
Qed.

(** The objects of [h2] that [vs] refers to, as saved by [state_dict]. *)
Lemma load_each_aligned (h2 : store) (vs : list value)
    (sts : list (gmap string Z)) :
  Forall2 (fun v st => exists l sch, v = VRef l /\ h2 !! l = Some sch
                                     /\ st = schedule_state_dict sch) vs sts ->
  forall hc,
    (forall l sch2, VRef l ∈ vs -> h2 !! l = Some sch2 ->
                    exists sch_c, hc !! l = Some sch_c
                                  /\ exists i, sch2 = sched_set_idx i sch_c) ->
    exists h3,
      load_each vs sts hc = Ok h3
      /\ (forall l, VRef l ∈ vs -> h3 !! l = h2 !! l)
      /\ (forall l, h3 !! l = h2 !! l \/ h3 !! l = hc !! l).
Proof.
  induction 1 as [| v st vs sts (l & sch2 & -> & Hl2 & ->) _ IH]; intros hc Hpre.
  { exists hc. cbn. split; [reflexivity |].
    split; [intros l Hin; inversion Hin | now right]. }
  destruct (Hpre l sch2) as (sch_c & Hc & i & Hi); [now left | exact Hl2 |].
  assert (Hload : call_load_state_dict (VRef l) (schedule_state_dict sch2) hc
                  = Ok (<[l := sch2]> hc)).
  { unfold call_load_state_dict, deref. rewrite Hc. cbn [rbind fst snd].
    rewrite load_saved_state. cbn [rbind].
    rewrite Hi at 1. rewrite schedule_idx_set_idx. now rewrite <- Hi. }
  destruct (IH (<[l := sch2]> hc)) as (h3 & Hrun & Hb & Ha).
  { intros l' sch' Hin Hl'. destruct (decide (l = l')) as [<- | Hne].
    - exists sch2. rewrite lookup_insert_eq. split; [reflexivity |].
      assert (sch' = sch2) as -> by congruence.
      exists (schedule_idx sch2). symmetry. apply sched_set_idx_same.
    - rewrite lookup_insert_ne by exact Hne.
      apply Hpre; [now right | exact Hl']. }
  exists h3. cbn [load_each]. rewrite Hload. cbn [rbind].
  split; [exact Hrun |].
  assert (Hl3 : h3 !! l = h2 !! l).
  { destruct (Ha l) as [E | E]; [exact E |].
    rewrite E, lookup_insert_eq. now rewrite Hl2. }
  split.
  - intros l' Hin. apply elem_of_cons in Hin as [[= ->] | Hin];
      [exact Hl3 | now apply Hb].
  - intros l'. destruct (Ha l') as [E | E]; [now left |].
    destruct (decide (l = l')) as [<- | Hne]; [now left |].
    right. now rewrite E, lookup_insert_ne.
Qed.

Lemma group_agree_restored (g : group) (vs : list value) :
  g !! "schedules" = Some (VList vs) ->
  group_agree g (<["lr" := dict_get g "lr"]>
                   (<["schedules" := VList vs]> (delete "schedules" g))).
Proof.
  intros Hs. split.
  - intros k Hne. rewrite lookup_insert_ne by congruence.
    destruct (decide (k = "schedules")) as [-> | Hk].
    + now rewrite lookup_insert_eq.
    + rewrite lookup_insert_ne by congruence.
      now rewrite lookup_delete_ne by congruence.
  - unfold dict_get at 2. now rewrite lookup_insert_eq.
Qed.

Lemma restore_groups_aligned (h2 : store) (gs2 : list group) :
  forall (states : list (list (gmap string Z))) (hc : store),
    Forall2
      (fun g sts =>
         exists vs,
           g !! "schedules" = Some (VList vs)
           /\ Forall2 (fun v st => exists l sch, v = VRef l /\ h2 !! l = Some sch
                                                 /\ st = schedule_state_dict sch)
                      vs sts) gs2 states ->
    (forall l sch2, attached_in gs2 l -> h2 !! l = Some sch2 ->
                    exists sch_c, hc !! l = Some sch_c
                                  /\ exists i, sch2 = sched_set_idx i sch_c) ->
    exists h3 gs3,
      restore_groups (map (delete "schedules") gs2)
        (map (fun g => dict_get g "schedules") gs2) states
        (map (fun g => dict_get g "lr") gs2) hc = Ok (h3, gs3)
      /\ Forall2 group_agree gs2 gs3
      /\ (forall l, attached_in gs2 l -> h3 !! l = h2 !! l)
      /\ (forall l, h3 !! l = h2 !! l \/ h3 !! l = hc !! l).
Proof.
  induction gs2 as [| g gs2 IH]; intros states hc HF Hpre.
  { inversion HF; subst. exists hc, []. cbn. split; [reflexivity |].
    split; [constructor |].
    split; [| now right].
    intros l (g & vs & Hin & _). inversion Hin. }
  inversion HF as [| ? sts ? states' (vs & Hs & Hvs) HF']; subst.
  destruct (load_each_aligned h2 vs sts Hvs hc) as (h1 & Hrun1 & Hb1 & Ha1).
  { intros l sch2 Hin. apply Hpre. apply attached_in_cons. left.
    exists g, vs. split; [now left | auto]. }
  destruct (IH states' h1 HF') as (h3 & gs3 & Hrun & Hag & Hb & Ha).
  { intros l sch2 Hin Hl2. destruct (Ha1 l) as [E | E].
    - exists sch2. split; [congruence |].
      exists (schedule_idx sch2). symmetry. apply sched_set_idx_same.
    - rewrite E. apply Hpre; [| exact Hl2]. apply attached_in_cons. now right. }
  assert (Hd : dict_get g "schedules" = VList vs)
    by (unfold dict_get; now rewrite Hs).
  exists h3, (<["lr" := dict_get g "lr"]>
                (<["schedules" := VList vs]> (delete "schedules" g)) :: gs3).
  cbn [map restore_groups]. rewrite Hd. cbn [py_iter rbind].
  rewrite Hrun1. cbn [rbind]. rewrite Hrun. cbn [rbind fst snd].
  split; [reflexivity |].
  split; [constructor; [now apply group_agree_restored | exact Hag] |].
  split.
  - intros l Hin. apply attached_in_cons in Hin as [Hin | Hin]; [| now apply Hb].
    destruct Hin as (g0 & vs0 & Hg0 & Hs0 & Hl).
    apply list_elem_of_singleton in Hg0 as ->.
    assert (vs0 = vs) as -> by congruence.
    destruct (Ha l) as [E | E]; [exact E |]. rewrite E. now apply Hb1.
  - intros l. destruct (Ha l) as [E | E]; [now left |].
    rewrite E. apply Ha1.
Qed.

Section WithInner.
Context {S closure loss : Type}.
Variable optim_step : option closure -> list group -> S -> S * option loss.

Lemma run_sim (cs : list (option closure)) :
  forall (w w' : t S),
    groups_ok (heap w) (param_groups (optim w)) ->
    heap w = heap w' ->
    Forall2 group_agree (param_groups (optim w)) (param_groups (optim w')) ->
    same_outcome (run optim_step cs w) (run optim_step cs w').
Proof.
  induction cs as [| c cs IH]; intros w w' Hok Hh Hag; cbn [run].
  { cbn. auto. }
  unfold step. rewrite <- Hh.
  pose proof (step_groups_sim _ _ Hag (heap w) Hok) as Hsim.
  destruct (step_groups (param_groups (optim w)) (heap w))
    as [[h1 gs1] | e] eqn:E1;
    destruct (step_groups (param_groups (optim w')) (heap w))
      as [[h1' gs1'] | e'] eqn:E1';
    cbn [rbind fst snd] in *; try contradiction; [| exact Hsim].
  destruct Hsim as [<- Hag1].
  destruct (step_groups_evolves _ _ _ _ E1) as (He & Ho & _).
  apply IH; cbn [heap optim param_groups]; [| reflexivity | exact Hag1].
  eapply groups_ok_evolves; eauto.
Qed.

(** C3: take a configuration (schedule objects [h0], inner optimizer [o0])
    in which every attached schedule is a [LinearSchedule]; construct the
    wrapper, run any number of steps and save with [state_dict].  A second
    wrapper constructed on the same configuration (the inner state may
    differ) loads the saved state without error, and then has the schedule
    objects of the first wrapper and groups that agree with its groups;
    after any further sequence of [step] calls the two still have the same
    schedule objects and agreeing groups, or have raised the same
    exception. *)
Theorem linear_round_trip (h0 : store) (o0 o0' : optimizer S)
    (cs : list (option closure)) (w1 w2 : t S) (sd : gmap string (sdval S)) :
  linear_only h0 (param_groups o0) ->
  param_groups o0' = param_groups o0 ->
  init h0 o0 = Ok w1 ->
  run optim_step cs w1 = Ok w2 ->
  state_dict w2 = Ok sd ->
  exists w1' w3,
    init h0 o0' = Ok w1'
    /\ load_state_dict sd w1' = Ok w3
    /\ heap w3 = heap w2
    /\ state (optim w3) = state (optim w2)
    /\ Forall2 group_agree (param_groups (optim w2)) (param_groups (optim w3))
    /\ forall cs',
         same_outcome (run optim_step cs' w2) (run optim_step cs' w3).
Proof.
  intros Hlin Hgs Hinit Hrun Hsd.
  unfold init in Hinit. apply rbind_ok in Hinit as ([h1 gs1] & Hprime & [= <-]).
  cbn [fst snd] in *.
  destruct (prime_groups_ok _ _ _ _ Hprime Hlin) as (He01 & Hok1).
  destruct (run_evolves optim_step _ _ _ Hrun) as (He12 & Ho12 & Ht12).
  cbn [heap optim param_groups] in He12, Ho12, Ht12.
  destruct w2 as [h2 [gs2 st2]]. cbn [heap optim param_groups state] in *.
  assert (Hok2 : groups_ok h2 gs2) by (eapply groups_ok_evolves; eauto).
  destruct (state_dict_inv _ _ Hsd) as (scheds & Esd & HF).
  cbn [heap optim param_groups state] in Esd, HF.
  assert (Hso : sd_optim sd
                = Ok {| sd_state := st2;
                        sd_param_groups := map (delete "schedules") gs2 |}).
  { rewrite Esd. unfold sd_optim. now rewrite lookup_insert_eq. }
  assert (Hsl : sd_lr sd = Ok (map (fun g => dict_get g "lr") gs2)).
  { rewrite Esd. unfold sd_lr. rewrite lookup_insert_ne by done.
    now rewrite lookup_insert_eq. }
  assert (Hss : sd_schedules sd = Ok scheds).
  { rewrite Esd. unfold sd_schedules. rewrite !lookup_insert_ne by done.
    now rewrite lookup_insert_eq. }
  (* the lists of schedules are those of the saved wrapper *)
  assert (Hlists : Forall2 (fun g1 g2 : group =>
                              g1 !! "schedules" = g2 !! "schedules"
                              /\ exists vs, g2 !! "schedules" = Some (VList vs))
                           gs1 gs2).
  { assert (Hl2 : Forall (fun g : group =>
                            exists vs, g !! "schedules" = Some (VList vs)) gs2).
    { clear -HF. induction HF as [| g sts gs ss (vs & Hv & _) _ IH];
        constructor; eauto. }
    clear -Ho12 Hl2. induction Ho12 as [| g1 g2 gs1 gs2 Ho _ IH]; [constructor |].
    apply Forall_cons in Hl2 as [[vs Hvs] Hl2]. constructor; [| now apply IH].
    split; [| eauto]. rewrite Hvs. eapply overwrites_list; eauto. }
  assert (Hitems : mapM (fun g => dict_item g "schedules") gs1
                   = Ok (map (fun g => dict_get g "schedules") gs2)).
  { apply mapM_Forall2. apply Forall2_fmap_r.
    eapply Forall2_impl; [exact Hlists |].
    intros g1 g2 [E [vs Hvs]]. unfold compose, dict_item, dict_get.
    rewrite E, Hvs. reflexivity. }
  assert (Hatt : forall l, attached_in gs1 l -> attached_in gs2 l).
  { intros l (g1 & vs & Hin & Hs & Hl).
    apply list_elem_of_lookup in Hin as [i Hi].
    destruct (Forall2_lookup_l _ _ _ _ _ Hlists Hi) as (g2 & Hg2 & E & _).
    exists g2, vs. split; [eapply list_elem_of_lookup_2; eauto |].
    split; [congruence | exact Hl]. }
  destruct (restore_groups_aligned h2 gs2 scheds h1 HF)
    as (h3 & gs3 & Hrest & Hag & Hb & Ha).
  { intros l sch2 Hin Hl2.
    destruct (He12 l) as [E | (a & b & Ha & Hb & Hab)].
    - exists sch2. split; [congruence |].
      exists (schedule_idx sch2). symmetry. apply sched_set_idx_same.
    - exists a. split; [exact Ha |].
      assert (b = sch2) as -> by congruence.
      pose proof (attached_in_overwrites _ _ _ Ho12 Hin)
        as (g1 & vs & Hg1 & Hs1 & Hl1).
      pose proof (Hok1 g1 vs Hg1 Hs1) as Hrefs.
      rewrite Forall_forall in Hrefs.
      destruct (Hrefs _ Hl1) as (l' & sch1 & [= <-] & Hsch1 & Hres).
      assert (sch1 = a) as -> by congruence.
      destruct a as [s | s]; [| contradiction].
      destruct sch2 as [s2 | s2]; [| contradiction].
      cbn in Hab, Hres. destruct (Hab Hres) as [i ->]. now exists i. }
  exists {| heap := h1; optim := {| param_groups := gs1; state := state o0' |} |}.
  exists {| heap := h3; optim := {| param_groups := gs3; state := st2 |} |}.
  split.
  { unfold init. rewrite Hgs, Hprime. reflexivity. }
  assert (Hheap : h3 = h2).
  { apply map_eq. intros l. destruct (Ht12 l) as [E | Hin].
    - destruct (Ha l) as [E' | E']; congruence.
    - apply Hb. now apply Hatt. }
  split.
  { unfold load_state_dict. cbn [heap optim param_groups state].
    rewrite Hitems. cbn [rbind]. rewrite Hso. cbn [rbind].
    unfold inner_load_state_dict. cbn [sd_param_groups sd_state param_groups].
    rewrite length_map, <- (Forall2_length _ _ _ Ho12), Nat.eqb_refl.
    cbn [rbind]. rewrite Hss, Hsl. cbn [rbind param_groups state].
    rewrite Hrest. reflexivity. }
  cbn [heap optim param_groups state].
  split; [exact Hheap |]. split; [reflexivity |]. split; [exact Hag |].
  intros cs'. apply run_sim; cbn [heap optim param_groups];
    [exact Hok2 | now symmetry | exact Hag].
Qed.

End WithInner.

End RoundTrip.

(** ** The properties on the example configurations *)

Section Examples.
Import ScheduledOptimizer.

(** A step of the wrapper over [demo_inner], whose [step] returns the loss
    1, returns [None]. *)
Lemma step_returns_none_witness :
  exists (w w' : t unit) r,
    init demo_heap mixed_optim = Ok w
    /\ step demo_inner (Some tt) w = Ok (w', r)
    /\ r = None
    /\ fst (demo_inner (Some tt) (param_groups (optim w)) (state (optim w)))
       = state (optim w')
    /\ snd (demo_inner (Some tt) (param_groups (optim w)) (state (optim w)))
       = Some 1.
Proof.
  eassert (H0 : init demo_heap mixed_optim = Ok _) by (vm_compute; reflexivity).
  match type of H0 with
  | _ = Ok ?w =>
      eassert (H : step demo_inner (Some tt) w = Ok (_, _))
        by (vm_compute; reflexivity)
  end.
  destruct (step_returns_none demo_inner _ _ _ _ H) as [Hr Hs].
  eexists _, _, _. split; [exact H0 |]. split; [exact H |].
  split; [exact Hr |]. split; [symmetry; exact Hs | reflexivity].
Defined.

(** With a second group that carries no schedule, [state_dict] raises
    [TypeError]. *)
Lemma state_dict_needs_schedules_witness :
  state_dict {| heap := demo_heap;
                optim := {| param_groups := [<["schedules" := VList [VRef 0]]>
                                               demo_group; plain_group];
                            state := tt |} |}
  = Err TypeError.
Proof.
  match goal with
  | |- state_dict ?w = _ =>
      destruct (state_dict_needs_schedules w plain_group) as (_ & Hte & _)
  end.
  - cbn. right. left.
  - vm_compute. reflexivity.
  - apply (Hte [<["schedules" := VList [VRef 0]]> demo_group] []);
      [reflexivity |].
    constructor; [| constructor].
    exists [VRef 0]. split; [vm_compute; reflexivity |].
    constructor; [| constructor]. eexists. vm_compute. reflexivity.
Defined.


(** The constructor on [demo_optim]: the schedule object has index 1 and
    [lr] holds the value of index 0. *)
Lemma init_primes_witness :
  exists (w : t unit) sch v,
    init demo_heap demo_optim = Ok w
    /\ heap w !! 0%nat = Some sch
    /\ schedule_idx sch = 1%Z
    /\ written_value "lr"
         (schedule_step (Linear (LinearSchedule.init_default 100)) demo_group)
       = Some v
    /\ (forall g', param_groups (optim w) = [g'] -> g' !! "lr" = Some (VNum v)).
Proof.
  destruct (init_primes (S := unit) demo_heap demo_optim [[0%nat]])
    as (w & Hinit & _ & _ & Hpost).
  - constructor; [| constructor].
    split; [vm_compute; reflexivity |]. split.
    + constructor; [| constructor]. eexists.
      split; [vm_compute; reflexivity |].
      split; [reflexivity |]. split; [discriminate |].
      eexists. vm_compute. reflexivity.
    + vm_compute. apply NoDup_singleton.
  - cbn. apply NoDup_singleton.
  - inversion Hpost as [| g ls g' gs cfg gs' [_ Hp] Hrest]; subst.
    inversion Hrest; subst.
    apply Forall_cons in Hp as [Hp _].
    destruct (Hp _ eq_refl) as (sch & v & Ha & Hb & Hc & Hd).
    exists w, sch, v. split; [exact Hinit |]. split; [exact Ha |].
    split; [exact Hb |]. split; [exact Hc |].
    intros g0 Hg0. assert (g0 = g') as -> by congruence. exact Hd.
Defined.

(** C4 as stated fails: with one schedule object attached to two groups the
    constructor steps it twice; its index is 2 afterwards, and the second
    group's [lr] holds the value of index 1 (1/10000), not the value of
    index 0 (0). *)
Lemma init_shared_schedule :
  exists (w : t unit) sch g2 v0 v,
    init demo_heap shared_optim = Ok w
    /\ heap w !! 0%nat = Some sch
    /\ schedule_idx sch = 2%Z
    /\ written_value "lr"
         (schedule_step (Linear (LinearSchedule.init_default 100)) demo_group)
       = Some v0
    /\ v0 == 0
    /\ param_groups (optim w) !! 1%nat = Some g2
    /\ g2 !! "lr" = Some (VNum v)
    /\ v == 1 # 10000
    /\ ~ v == v0.
Proof.
  eexists _, _, _, _, _.
  split; [vm_compute; reflexivity |].
  split; [vm_compute; reflexivity |].
  split; [reflexivity |].
  split; [vm_compute; reflexivity |].
  split; [vm_compute; reflexivity |].
  split; [vm_compute; reflexivity |].
  split; [vm_compute; reflexivity |].
  split; [vm_compute; reflexivity |].
  vm_compute. discriminate.
Qed.

(** Saving after two steps and loading into a second wrapper constructed
    on the same configuration. *)
Lemma linear_round_trip_witness :
  exists (w1 w2 w3 : t unit) sd,
    init demo_heap demo_optim = Ok w1
    /\ run demo_inner [None; None] w1 = Ok w2
    /\ state_dict w2 = Ok sd
    /\ load_state_dict sd w1 = Ok w3
    /\ heap w3 = heap w2.
Proof.
  eassert (H1 : init demo_heap demo_optim = Ok _) by (vm_compute; reflexivity).
  match type of H1 with
  | _ = Ok ?w1 =>
      eassert (H2 : run demo_inner [None; None] w1 = Ok _)
        by (vm_compute; reflexivity)
  end.
  match type of H2 with
  | _ = Ok ?w2 =>
      eassert (H3 : state_dict w2 = Ok _) by (vm_compute; reflexivity)
  end.
  assert (Hlin : linear_only demo_heap (param_groups demo_optim)).
  { intros g l c Hg Hl. apply list_elem_of_singleton in Hg as ->.
    change (attached demo_group) with [VRef 0] in Hl.
    apply list_elem_of_singleton in Hl as [= ->]. vm_compute. discriminate. }
  destruct (linear_round_trip demo_inner demo_heap demo_optim demo_optim
              _ _ _ _ Hlin eq_refl H1 H2 H3)
    as (w1' & w3 & H1' & Hload & Hheap & _).
  rewrite H1 in H1'. injection H1' as <-.
  eexists _, _, w3, _.
  split; [exact H1 |]. split; [exact H2 |]. split; [exact H3 |].
  split; [exact Hload | exact Hheap].
Defined.

End Examples.

(** * Further properties of the schedules *)

Section LinearMore.
Import LinearSchedule.

Lemma step_on_resolved (gs : list group) :
  forall (s : t) (sch' : schedule),
    is_Some (max_value s) ->
    step_on gs (Linear s) = Ok sch' ->
    sch' = Linear (set_idx (idx s + Z.of_nat (length gs)) s).
Proof.
  induction gs as [| g gs IH]; intros s sch' Hm H; cbn [step_on] in H.
  { injection H as <-. cbn [length Z.of_nat]. rewrite Z.add_0_r.
    now rewrite linear_set_idx_same. }
  destruct (resolved_step s Hm) as [r Hr]. rewrite Hr in H.
  destruct r as [v | e]; [| discriminate]. cbn [rbind fst] in H.
  apply IH in H; [| exact Hm]. rewrite H. cbn [idx set_idx length].
  unfold set_idx. cbn. do 2 f_equal. lia.
Qed.

(** X1: a successful [step] leaves [max_value] set to a number: the one it
    had, or, when it was unset, the number found in the group's target
    field.  From then on the value is fixed: whatever groups the later
    successful calls are given, the schedule only advances its index, by
    one per call. *)
Theorem linear_max_value_settles (s s1 : t) (g g1 : group) :
  step s g = Ok (s1, g1) ->
  exists m,
    max_value s1 = Some m
    /\ match max_value s with
       | Some m0 => m = m0
       | None => g !! path s = Some (VNum m)
       end
    /\ forall gs sch',
         step_on gs (Linear s1) = Ok sch' ->
         sch' = Linear (set_idx (idx s1 + Z.of_nat (length gs)) s1).
Proof.
  intros H. unfold step in H.
  apply rbind_ok in H as (mv & Hmv & H).
  apply rbind_ok in H as ([m v] & Hb & [= <- <-]).
  exists m. split; [reflexivity |]. split.
  - assert (Hnum : mv = VNum m).
    { destruct (py_lt _ _);
        [unfold warmup_branch in Hb | unfold decay_branch in Hb];
        apply rbind_ok in Hb as (pr & _ & Hb);
        apply rbind_ok in Hb as (m' & Hm' & [= <- _]);
        destruct mv; cbn in Hm'; congruence. }
    subst mv. unfold resolve_max_value, get_deep_attr, dict_item in Hmv.
    destruct (max_value s) as [m0 |]; [congruence |].
    destruct (g !! path s); congruence.
  - intros gs sch'. apply step_on_resolved. cbn. eauto.
Qed.

(** The default schedule resolves [max_value] from [lr = 1/1000]; three
    later calls on a group whose [lr] is 5 leave it at 1/1000. *)
Lemma linear_max_value_settles_witness :
  let g : group := {[ "lr" := VNum (1 # 1000) ]} in
  let g' : group := {[ "lr" := VNum 5 ]} in
  exists s1 g1 s4,
    step (init_default 100) g = Ok (s1, g1)
    /\ step_on [g'; g'; g'] (Linear s1) = Ok (Linear s4)
    /\ max_value s4 = Some (1 # 1000)
    /\ idx s4 = 4%Z.
Proof.
  intros g g'.
  eassert (H : step (init_default 100) g = Ok (_, _))
    by (vm_compute; reflexivity).
  destruct (linear_max_value_settles _ _ _ _ H) as (m & Hm & Hg & Hlater).
  match type of H with
  | _ = Ok (?s1, _) =>
      eassert (H3 : step_on [g'; g'; g'] (Linear s1) = Ok (Linear _))
        by (vm_compute; reflexivity)
  end.
  pose proof (Hlater _ _ H3) as E.
  eexists _, _, _. split; [exact H |]. split; [exact H3 |].
  split; reflexivity.
Defined.



End LinearMore.


Section CyclicalMore.
Import CyclicalLinearSchedule.



(** The epoch counter after [k] calls on a fresh schedule. *)
Lemma epoch_after_step (spe k : Z) :
  (1 <= spe)%Z -> (0 <= k)%Z ->
  (if (k >? ((if (k <=? 1)%Z then 0 else (k - 2) / spe) + 1) * spe)%Z
   then (if (k <=? 1)%Z then 0 else (k - 2) / spe) + 1
   else (if (k <=? 1)%Z then 0 else (k - 2) / spe))%Z
  = (if (k + 1 <=? 1)%Z then 0 else (k + 1 - 2) / spe)%Z.
Proof.
  intros Hspe Hk.
  destruct (Z.leb_spec k 1) as [Hk1 | Hk1].
  - destruct (Z.gtb_spec k ((0 + 1) * spe)) as [Hgt | Hle]; [lia |].
    destruct (Z.leb_spec (k + 1) 1) as [_ | Hk2]; [reflexivity |].
    assert (k = 1)%Z as -> by lia.
    change (1 + 1 - 2)%Z with 0%Z. now rewrite Zdiv_0_l.
  - destruct (Z.leb_spec (k + 1) 1) as [Hk2 | _]; [lia |].
    pose proof (Z.div_mod (k - 2) spe ltac:(lia)) as Hdm.
    pose proof (Z.mod_pos_bound (k - 2) spe ltac:(lia)) as Hr.
    set (q := ((k - 2) / spe)%Z) in *. set (r := ((k - 2) mod spe)%Z) in *.
    destruct (Z.gtb_spec k ((q + 1) * spe)) as [Hgt | Hle].
    + apply (Z.div_unique (k + 1 - 2) spe (q + 1) 0); nia.
    + apply (Z.div_unique (k + 1 - 2) spe q (r + 1)); nia.
Qed.

(** X5: a schedule constructed with a number for [max_value], at least one
    step per epoch and [epochs_per_cycle] other than 0 and 1 never raises;
    after [n] calls its index is [n] and its epoch counter is 0 for
    [n <= 1] and [(n - 2) / steps_per_epoch] (floored) from then on.  The
    counter so trails the epoch [n / steps_per_epoch] of the [n]-th
    call. *)
Theorem cyclical_epoch_counter (n : nat) (steps_per_epoch : Z) (m min_value : Q)
    (epochs_per_cycle : Z) (path : string) (g : group) :
  (1 <= steps_per_epoch)%Z ->
  epochs_per_cycle <> 1%Z ->
  epochs_per_cycle <> 0%Z ->
  exists g',
    cyclical_steps n
      (init steps_per_epoch (Some m) min_value epochs_per_cycle path) g
    = Ok ({| CyclicalLinearSchedule.path := path;
             CyclicalLinearSchedule.max_value := Some m;
             CyclicalLinearSchedule.min_value := min_value;
             CyclicalLinearSchedule.epochs_per_cycle := epochs_per_cycle;
             CyclicalLinearSchedule.steps_per_epoch := steps_per_epoch;
             CyclicalLinearSchedule.num_epoch :=
               (if (Z.of_nat n <=? 1)%Z then 0
                else (Z.of_nat n - 2) / steps_per_epoch)%Z;
             CyclicalLinearSchedule.idx := Z.of_nat n |}, g').
Proof.
  intros Hspe H1 H0. induction n as [| n [g' IH]].
  { exists g. reflexivity. }
  cbn [cyclical_steps]. rewrite IH. cbn [rbind fst snd].
  match goal with
  | |- exists _, step ?s _ = _ =>
      pose proof (step_cyclical s g' m eq_refl H1 H0) as Hs
  end.
  rewrite Hs. eexists.
  cbn [CyclicalLinearSchedule.path CyclicalLinearSchedule.min_value
       CyclicalLinearSchedule.epochs_per_cycle
       CyclicalLinearSchedule.steps_per_epoch
       CyclicalLinearSchedule.num_epoch CyclicalLinearSchedule.idx].
  unfold next_num_epoch.
  cbn [CyclicalLinearSchedule.steps_per_epoch
       CyclicalLinearSchedule.num_epoch CyclicalLinearSchedule.idx].
  rewrite (epoch_after_step steps_per_epoch (Z.of_nat n)) by lia.
  replace (Z.of_nat n + 1)%Z with (Z.of_nat (Datatypes.S n)) by lia.
  reflexivity.
Qed.

(** With 3 steps per epoch: after the 4 calls of indices 0 to 3 the counter
    is still 0, after 5 calls it is 1. *)
Lemma cyclical_epoch_counter_witness :
  exists (s4 s5 : t) (g4 g5 : group),
    cyclical_steps 4 (init 3 (Some (1 # 100)) (1 # 1000) 10 "lr") ∅
    = Ok (s4, g4)
    /\ cyclical_steps 5 (init 3 (Some (1 # 100)) (1 # 1000) 10 "lr") ∅
       = Ok (s5, g5)
    /\ num_epoch s4 = 0%Z /\ num_epoch s5 = 1%Z.
Proof.
  destruct (cyclical_epoch_counter 4 3 (1 # 100) (1 # 1000) 10 "lr" ∅)
    as [g4 H4]; [lia | lia | lia |].
  destruct (cyclical_epoch_counter 5 3 (1 # 100) (1 # 1000) 10 "lr" ∅)
    as [g5 H5]; [lia | lia | lia |].
  eexists _, _, g4, g5. split; [exact H4 |]. split; [exact H5 |].
  split; reflexivity.
Defined.



End CyclicalMore.

Lemma schedule_load_inv (st : gmap string Z) (sch sch' : schedule) :
  schedule_load_state_dict st sch = Ok sch' ->
  exists i, st !! "idx" = Some i /\ sch' = sched_set_idx i sch.
Proof.
  intros H.
  destruct sch as [s | s]; cbn [schedule_load_state_dict] in H;
    apply rbind_ok in H as (s' & Hs & [= <-]);
    [unfold LinearSchedule.load_state_dict in Hs
    | unfold CyclicalLinearSchedule.load_state_dict in Hs];
    destruct (st !! "idx") as [i |]; try discriminate;
    injection Hs as <-; exists i; split; reflexivity.
Qed.

(** X7: for both classes, loading the state saved from a schedule into a
    schedule that differs from it in the index only gives the saved schedule
    back; and whatever dictionary is loaded, the state saved afterwards has
    the single key [idx] with the loaded value, so that other keys of the
    loaded dictionary are dropped. *)
Theorem schedule_state_round_trip :
  (forall (sch : schedule) (i : Z),
     schedule_load_state_dict (schedule_state_dict sch) (sched_set_idx i sch)
     = Ok sch)
  /\ (forall (st : gmap string Z) (sch sch' : schedule),
        schedule_load_state_dict st sch = Ok sch' ->
        exists i, st !! "idx" = Some i
                  /\ schedule_state_dict sch' = {[ "idx" := i ]}
                  /\ sch' = sched_set_idx i sch).
Proof.
  split.
  - intros sch i. rewrite load_saved_state.
    destruct sch as [s | s]; destruct s; reflexivity.
  - intros st sch sch' H.
    destruct (schedule_load_inv st sch sch' H) as (i & Hi & ->).
    exists i. split; [exact Hi |]. split; [| reflexivity].
    now destruct sch.
Qed.

(** * Further properties of the wrapper *)

Section LoadMore.
Import ScheduledOptimizer.

Lemma mapM_dict_item_missing (k : string) (g : group) (gs : list group) :
  g ∈ gs -> g !! k = None ->
  mapM (fun g => dict_item g k) gs = Err KeyError.
Proof.
  intros Hin Hg. induction gs as [| a gs IH]; [inversion Hin |].
  cbn [mapM]. unfold dict_item at 1.
  destruct (a !! k) as [v |] eqn:E; [| reflexivity].
  cbn [rbind]. apply elem_of_cons in Hin as [-> | Hin]; [congruence |].
  now rewrite (IH Hin).
Qed.

(** X8: [load_state_dict] starts by reading [group["schedules"]] of every
    current group: when some group of the wrapper carries no [schedules]
    entry it raises [KeyError], whatever the state it is given, and nothing
    is restored. *)
Theorem load_state_dict_needs_schedules {S : Type} (w : t S) (g : group)
    (sd : gmap string (sdval S)) :
  g ∈ param_groups (optim w) ->
  g !! "schedules" = None ->
  load_state_dict sd w = Err KeyError.
Proof.
  intros Hin Hg. unfold load_state_dict.
  now rewrite (mapM_dict_item_missing "schedules" g _ Hin Hg).
Qed.

(** X9: the schedules and their saved states are paired by [zip], which
    stops at the shorter list: schedules past the last saved state are not
    touched (not even looked up), saved states past the last schedule are
    ignored, and neither mismatch raises. *)
Theorem load_each_truncates :
  (forall (vs extra : list value) (sts : list (gmap string Z)) (h : store),
     (length sts <= length vs)%nat ->
     load_each (vs ++ extra) sts h = load_each vs sts h)
  /\ (forall (vs : list value) (sts extra : list (gmap string Z)) (h : store),
        (length vs <= length sts)%nat ->
        load_each vs (sts ++ extra) h = load_each vs sts h)
  /\ (forall (vs : list value) (h : store), load_each vs [] h = Ok h).
Proof.
  split; [| split].
  - intros vs. induction vs as [| v vs IH]; intros extra sts h Hlen.
    + destruct sts; [| cbn in Hlen; lia]. now destruct extra.
    + destruct sts as [| st sts]; [reflexivity |]. cbn [app load_each].
      destruct (call_load_state_dict v st h) as [h' | e]; [| reflexivity].
      cbn [rbind]. apply IH. cbn in Hlen. lia.
  - intros vs. induction vs as [| v vs IH]; intros sts extra h Hlen.
    + now destruct sts.
    + destruct sts as [| st sts]; [cbn in Hlen; lia |]. cbn [app load_each].
      destruct (call_load_state_dict v st h) as [h' | e]; [| reflexivity].
      cbn [rbind]. apply IH. cbn in Hlen. lia.
  - intros vs h. now destruct vs.
Qed.

(** *** What [load_state_dict] does to the schedule objects *)

Lemma sched_set_idx_twice (i j : Z) (sch : schedule) :
  sched_set_idx j (sched_set_idx i sch) = sched_set_idx j sch.
Proof. now destruct sch. Qed.

Lemma call_load_only_idx (v : value) (st : gmap string Z) (h h' : store) :
  call_load_state_dict v st h = Ok h' ->
  forall l,
    h' !! l = h !! l
    \/ exists sch i, h !! l = Some sch /\ h' !! l = Some (sched_set_idx i sch).
Proof.
  unfold call_load_state_dict. intros H.
  apply rbind_ok in H as ([l0 sch] & Hd & H).
  apply rbind_ok in H as (sch' & Hs & [= <-]). cbn [fst snd] in *.
  apply deref_ok in Hd as [-> Hl0]. cbn [fst snd] in *.
  destruct (schedule_load_inv st sch sch' Hs) as (i & _ & ->).
  intros l. destruct (decide (l0 = l)) as [<- | Hne].
  - right. exists sch, i. split; [exact Hl0 | apply lookup_insert_eq].
  - left. now rewrite lookup_insert_ne.
Qed.

Lemma load_each_only_idx (vs : list value) :
  forall (sts : list (gmap string Z)) (h h' : store),
    load_each vs sts h = Ok h' ->
    forall l,
      h' !! l = h !! l
      \/ exists sch i, h !! l = Some sch /\ h' !! l = Some (sched_set_idx i sch).
Proof.
  induction vs as [| v vs IH]; intros sts h h' H l; cbn [load_each] in H.
  { injection H as <-. now left. }
  destruct sts as [| st sts]; [injection H as <-; now left |].
  apply rbind_ok in H as (h1 & H1 & H).
  destruct (IH _ _ _ H l) as [E | (sch1 & j & Hl1 & Hl')].
  - rewrite E. eapply call_load_only_idx; eauto.
  - destruct (call_load_only_idx _ _ _ _ H1 l) as [E | (sch & i & Hl & Hl1')].
    + right. exists sch1, j. rewrite <- E. auto.
    + right. exists sch, j. split; [exact Hl |].
      rewrite Hl'. f_equal. assert (sch1 = sched_set_idx i sch) as -> by congruence.
      apply sched_set_idx_twice.
Qed.

Lemma restore_groups_spec (gs : list group) :
  forall (svs : list value) (states : list (list (gmap string Z)))
         (lrs : list value) (h h' : store) (gs' : list group),
    restore_groups gs svs states lrs h = Ok (h', gs') ->
    length gs' = length gs
    /\ (forall l,
          h' !! l = h !! l
          \/ exists sch i, h !! l = Some sch
                           /\ h' !! l = Some (sched_set_idx i sch))
    /\ (forall i g sv,
          gs !! i = Some g -> svs !! i = Some sv ->
          match states !! i, lrs !! i with
          | Some _, Some lr =>
              gs' !! i = Some (<["lr" := lr]> (<["schedules" := sv]> g))
          | _, _ => gs' !! i = Some g
          end).
Proof.
  induction gs as [| g gs IH]; intros svs states lrs h h' gs' H.
  { cbn in H. injection H as <- <-. split; [reflexivity |].
    split; [now left | intros i g sv Hi; inversion Hi]. }
  destruct svs as [| sv svs].
  { cbn in H. injection H as <- <-. split; [reflexivity |].
    split; [now left | intros i g0 sv Hi Hsv; inversion Hsv]. }
  destruct states as [| sts states].
  { cbn in H. injection H as <- <-. split; [reflexivity |].
    split; [now left |]. intros i g0 sv0 Hi Hsv. now rewrite lookup_nil. }
  destruct lrs as [| lr lrs].
  { cbn in H. injection H as <- <-. split; [reflexivity |].
    split; [now left |]. intros i g0 sv0 Hi Hsv.
    destruct ((sts :: states) !! i); exact Hi. }
  cbn [restore_groups] in H.
  apply rbind_ok in H as (vs & Hvs & H).
  apply rbind_ok in H as (h1 & H1 & H).
  apply rbind_ok in H as ([h2 gs2] & H2 & [= <- <-]). cbn [fst snd] in *.
  destruct (IH _ _ _ _ _ _ H2) as (Hlen & Hheap & Hgs).
  split; [cbn; now rewrite Hlen |].
  split.
  { intros l. destruct (Hheap l) as [E | (sch1 & j & Hl1 & Hl')].
    - rewrite E. eapply load_each_only_idx; eauto.
    - destruct (load_each_only_idx _ _ _ _ H1 l) as [E | (sch & i & Hl & Hl1')].
      + right. exists sch1, j. rewrite <- E. auto.
      + right. exists sch, j. split; [exact Hl |].
        rewrite Hl'. f_equal.
        assert (sch1 = sched_set_idx i sch) as -> by congruence.
        apply sched_set_idx_twice. }
  intros i g0 sv0 Hi Hsv. destruct i as [| i]; cbn in *.
  - injection Hi as <-. injection Hsv as <-. reflexivity.
  - now apply Hgs.
Qed.

Section WithState.
Context {S : Type}.

(** X10: what a successful [load_state_dict] leaves.  The inner optimizer
    has the saved state and as many groups as before.  A group whose
    position has both a saved list of schedule states and a saved [lr] is
    the saved copy of that position, with the [schedules] entry the wrapper
    had there before the call and with [lr] set to the saved [lr]; a group
    past the end of either saved list is the bare saved copy, left without
    [schedules].  No schedule object is replaced or stepped: an object is as
    before, up to its index. *)
Theorem load_state_dict_effect (sd : gmap string (sdval S)) (w w' : t S) :
  load_state_dict sd w = Ok w' ->
  exists osd states lrs,
    sd_optim sd = Ok osd
    /\ sd_schedules sd = Ok states
    /\ sd_lr sd = Ok lrs
    /\ state (optim w') = sd_state osd
    /\ length (param_groups (optim w')) = length (param_groups (optim w))
    /\ (forall i g0 gsaved,
          param_groups (optim w) !! i = Some g0 ->
          sd_param_groups osd !! i = Some gsaved ->
          match states !! i, lrs !! i with
          | Some _, Some lr =>
              param_groups (optim w') !! i
              = Some (<["lr" := lr]>
                        (<["schedules" := dict_get g0 "schedules"]> gsaved))
          | _, _ => param_groups (optim w') !! i = Some gsaved
          end)
    /\ (forall l,
          heap w' !! l = heap w !! l
          \/ exists sch i, heap w !! l = Some sch
                           /\ heap w' !! l = Some (sched_set_idx i sch)).
Proof.
  unfold load_state_dict. intros H.
  apply rbind_ok in H as (svs & Hsvs & H).
  apply rbind_ok in H as (osd & Hosd & H).
  apply rbind_ok in H as (o' & Ho' & H).
  apply rbind_ok in H as (states & Hst & H).
  apply rbind_ok in H as (lrs & Hlrs & H).
  apply rbind_ok in H as ([h' gs'] & Hr & [= <-]). cbn [fst snd] in *.
  unfold inner_load_state_dict in Ho'.
  destruct (Nat.eqb_spec (length (sd_param_groups osd))
                         (length (param_groups (optim w)))) as [Hlen |];
    [| discriminate].
  injection Ho' as <-. cbn [param_groups state] in *.
  destruct (restore_groups_spec _ _ _ _ _ _ _ Hr) as (Hl' & Hheap & Hgs).
  exists osd, states, lrs.
  split; [exact Hosd |]. split; [exact Hst |]. split; [exact Hlrs |].
  cbn [heap optim param_groups state].
  split; [reflexivity |]. split; [congruence |]. split; [| exact Hheap].
  intros i g0 gsaved Hg0 Hsaved.
  apply mapM_Forall2 in Hsvs.
  destruct (Forall2_lookup_l _ _ _ _ _ Hsvs Hg0) as (sv & Hsv & Hitem).
  unfold dict_item in Hitem. unfold dict_get.
  destruct (g0 !! "schedules") as [v |]; [| discriminate].
  injection Hitem as ->. now apply Hgs.
Qed.

End WithState.

End LoadMore.

Section StepMore.
Import ScheduledOptimizer.

(** *** Which keys and objects a step touches *)

Lemma call_step_frame (v : value) (h h' : store) (g g' : group) :
  call_step v h g = Ok (h', g') ->
  (forall l, schedule_path <$> h' !! l = schedule_path <$> h !! l)
  /\ exists l sch,
       v = VRef l /\ h !! l = Some sch
       /\ forall k, k <> schedule_path sch -> g' !! k = g !! k.
Proof.
  intros H. destruct (call_step_inv _ _ _ _ _ H)
    as (l & sch & sch' & -> & Hl & Hs & ->).
  destruct (schedule_step_inv _ _ _ _ Hs) as (q & -> & Hp & _).
  split.
  - intros l'. destruct (decide (l = l')) as [<- | Hne].
    + rewrite lookup_insert_eq, Hl. cbn. now rewrite Hp.
    + now rewrite lookup_insert_ne.
  - exists l, sch. split; [reflexivity |]. split; [exact Hl |].
    intros k Hk. now rewrite lookup_insert_ne.
Qed.

Lemma omap_paths_agree (h h' : store) (vs : list value) :
  (forall l, schedule_path <$> h' !! l = schedule_path <$> h !! l) ->
  omap (fun v => match v with
                 | VRef l => schedule_path <$> h' !! l
                 | _ => None
                 end) vs
  = omap (fun v => match v with
                   | VRef l => schedule_path <$> h !! l
                   | _ => None
                   end) vs.
Proof.
  intros Hp. induction vs as [| v vs IH]; [reflexivity |].
  cbn [omap list_omap]. rewrite IH.
  destruct v as [| q | l | vs']; try reflexivity. now rewrite Hp.
Qed.

Lemma step_each_frame (vs : list value) :
  forall (h h' : store) (g g' : group),
    step_each vs h g = Ok (h', g') ->
    (forall l, schedule_path <$> h' !! l = schedule_path <$> h !! l)
    /\ (forall k,
          k ∉ omap (fun v => match v with
                             | VRef l => schedule_path <$> h !! l
                             | _ => None
                             end) vs ->
          g' !! k = g !! k).
Proof.
  induction vs as [| v vs IH]; intros h h' g g' H; cbn [step_each] in H.
  { injection H as <- <-. split; auto. }
  apply rbind_ok in H as ([h1 g1] & H1 & H). cbn [fst snd] in H.
  destruct (call_step_frame _ _ _ _ _ H1) as (Hp1 & l & sch & -> & Hl & Hk1).
  destruct (IH _ _ _ _ H) as (Hp & Hk).
  split.
  - intros l'. now rewrite Hp, Hp1.
  - intros k Hnot. cbn [omap list_omap] in Hnot. rewrite Hl in Hnot.
    cbn in Hnot. apply not_elem_of_cons in Hnot as [Hne Hnot].
    rewrite Hk; [now apply Hk1 |].
    now rewrite (omap_paths_agree h h1 vs Hp1).
Qed.

Lemma group_paths_agree (h h' : store) (g : group) :
  (forall l, schedule_path <$> h' !! l = schedule_path <$> h !! l) ->
  group_paths h' g = group_paths h g.
Proof.
  intros Hp. unfold group_paths.
  destruct (g !! "schedules") as [[| q | l | vs] |]; try reflexivity.
  now apply omap_paths_agree.
Qed.

Lemma step_groups_frame (gs : list group) :
  forall (h h' : store) (gs' : list group),
    step_groups gs h = Ok (h', gs') ->
    (forall l, schedule_path <$> h' !! l = schedule_path <$> h !! l)
    /\ Forall2 (fun g g' => forall k, k ∉ group_paths h g -> g' !! k = g !! k)
               gs gs'.
Proof.
  induction gs as [| g gs IH]; intros h h' gs' H; cbn [step_groups] in H.
  { injection H as <- <-. split; [auto | constructor]. }
  apply rbind_ok in H as ([h1 g1] & H1 & H).
  apply rbind_ok in H as ([h2 gs2] & H2 & [= <- <-]). cbn [fst snd] in *.
  destruct (IH _ _ _ H2) as (Hp2 & HF).
  assert (Hg : (forall l, schedule_path <$> h1 !! l = schedule_path <$> h !! l)
               /\ forall k, k ∉ group_paths h g -> g1 !! k = g !! k).
  { unfold step_group in H1. unfold group_paths.
    destruct (g !! "schedules") as [v |] eqn:E.
    - apply rbind_ok in H1 as (vs & Hvs & H1).
      destruct v as [| q | l0 | vs0]; try discriminate. injection Hvs as ->.
      now apply step_each_frame.
    - injection H1 as <- <-. auto. }
  destruct Hg as [Hp1 Hk1].
  split; [intros l; now rewrite Hp2, Hp1 |].
  constructor; [exact Hk1 |].
  eapply Forall2_impl; [exact HF |].
  intros g0 g0' Hk0 k Hnot. apply Hk0.
  now rewrite (group_paths_agree h h1 g0 Hp1).
Qed.

(** *** How far a step advances the indices *)

Lemma ref_count_cons (l : loc) (v : value) (vs : list value) :
  ref_count l (v :: vs) = (ref_count l [v] + ref_count l vs)%Z.
Proof. destruct v; cbn [ref_count]; lia. Qed.

Lemma call_step_idx (v : value) (h h' : store) (g g' : group) :
  call_step v h g = Ok (h', g') ->
  forall l sch,
    h !! l = Some sch ->
    exists sch', h' !! l = Some sch'
                 /\ schedule_idx sch' = (schedule_idx sch + ref_count l [v])%Z.
Proof.
  intros H l sch Hl. destruct (call_step_inv _ _ _ _ _ H)
    as (l0 & sch0 & sch0' & -> & Hl0 & Hs & ->).
  destruct (schedule_step_inv _ _ _ _ Hs) as (q & _ & _ & Hi & _).
  cbn [ref_count]. destruct (Nat.eqb_spec l l0) as [-> | Hne].
  - exists sch0'. rewrite lookup_insert_eq. split; [reflexivity |].
    assert (sch = sch0) as -> by congruence. lia.
  - exists sch. rewrite lookup_insert_ne by congruence.
    split; [exact Hl | lia].
Qed.

Lemma step_each_idx (vs : list value) :
  forall (h h' : store) (g g' : group),
    step_each vs h g = Ok (h', g') ->
    forall l sch,
      h !! l = Some sch ->
      exists sch', h' !! l = Some sch'
                   /\ schedule_idx sch' = (schedule_idx sch + ref_count l vs)%Z.
Proof.
  induction vs as [| v vs IH]; intros h h' g g' H l sch Hl;
    cbn [step_each] in H.
  { injection H as <- <-. exists sch. split; [exact Hl | cbn; lia]. }
  apply rbind_ok in H as ([h1 g1] & H1 & H). cbn [fst snd] in H.
  destruct (call_step_idx _ _ _ _ _ H1 l sch Hl) as (sch1 & Hl1 & Hi1).
  destruct (IH _ _ _ _ H l sch1 Hl1) as (sch' & Hl' & Hi').
  exists sch'. split; [exact Hl' |]. rewrite (ref_count_cons l v vs). lia.
Qed.

Lemma step_groups_idx (gs : list group) :
  forall (h h' : store) (gs' : list group),
    step_groups gs h = Ok (h', gs') ->
    forall l sch,
      h !! l = Some sch ->
      exists sch', h' !! l = Some sch'
                   /\ schedule_idx sch'
                      = (schedule_idx sch + attach_count l gs)%Z.
Proof.
  induction gs as [| g gs IH]; intros h h' gs' H l sch Hl;
    cbn [step_groups] in H.
  { injection H as <- <-. exists sch. split; [exact Hl | cbn; lia]. }
  apply rbind_ok in H as ([h1 g1] & H1 & H).
  apply rbind_ok in H as ([h2 gs2] & H2 & [= <- <-]). cbn [fst snd] in *.
  assert (Hg : exists sch1,
             h1 !! l = Some sch1
             /\ schedule_idx sch1
                = (schedule_idx sch
                   + match g !! "schedules" with
                     | Some (VList vs) => ref_count l vs
                     | _ => 0
                     end)%Z).
  { unfold step_group in H1. destruct (g !! "schedules") as [v |] eqn:E.
    - apply rbind_ok in H1 as (vs & Hvs & H1).
      destruct v as [| q | l0 | vs0]; try discriminate. injection Hvs as ->.
      eapply step_each_idx; eauto.
    - injection H1 as <- <-. exists sch. split; [exact Hl | lia]. }
  destruct Hg as (sch1 & Hl1 & Hi1).
  destruct (IH _ _ _ H2 l sch1 Hl1) as (sch' & Hl' & Hi').
  exists sch'. split; [exact Hl' |]. cbn [attach_count]. lia.
Qed.

Lemma prime_groups_idx (gs : list group) :
  forall (h h' : store) (gs' : list group),
    prime_groups gs h = Ok (h', gs') ->
    forall l sch,
      h !! l = Some sch ->
      exists sch', h' !! l = Some sch'
                   /\ schedule_idx sch'
                      = (schedule_idx sch + init_count l gs)%Z.
Proof.
  induction gs as [| g gs IH]; intros h h' gs' H l sch Hl;
    cbn [prime_groups] in H.
  { injection H as <- <-. exists sch. split; [exact Hl | cbn; lia]. }
  apply rbind_ok in H as ([h1 g1] & H1 & H).
  apply rbind_ok in H as ([h2 gs2] & H2 & [= <- <-]). cbn [fst snd] in *.
  assert (Hg : exists sch1,
             h1 !! l = Some sch1
             /\ schedule_idx sch1
                = (schedule_idx sch + ref_count l (attached g))%Z).
  { unfold prime_group in H1. unfold attached.
    destruct (g !! "schedules") as [v |] eqn:E.
    - eapply step_each_idx; eauto.
    - injection H1 as <- <-. exists sch. split; [exact Hl | cbn; lia]. }
  destruct Hg as (sch1 & Hl1 & Hi1).
  destruct (IH _ _ _ H2 l sch1 Hl1) as (sch' & Hl' & Hi').
  exists sch'. split; [exact Hl' |]. cbn [init_count]. lia.
Qed.

Section WithInner.
Context {S closure loss : Type}.
Variable optim_step : option closure -> list group -> S -> S * option loss.

(** X11: a [step] that returns keeps the number of groups, leaves alone
    every schedule object that no group lists, and changes in a group only
    the keys that are the target field of one of the schedules the group
    lists; a key it changes then holds a number.  In particular a group
    without schedules is returned as it was. *)
Theorem step_frame (c : option closure) (w w' : t S) (r : option loss) :
  step optim_step c w = Ok (w', r) ->
  length (param_groups (optim w')) = length (param_groups (optim w))
  /\ (forall l, heap w' !! l = heap w !! l
                \/ attached_in (param_groups (optim w)) l)
  /\ Forall2
       (fun g g' =>
          (forall k, k ∉ group_paths (heap w) g -> g' !! k = g !! k)
          /\ (forall k, g' !! k = g !! k \/ exists q, g' !! k = Some (VNum q))
          /\ (g !! "schedules" = None -> g' = g))
       (param_groups (optim w)) (param_groups (optim w')).
Proof.
  unfold step. intros H. apply rbind_ok in H as ([h1 gs1] & H1 & [= <- _]).
  cbn [heap optim param_groups fst snd].
  destruct (step_groups_evolves _ _ _ _ H1) as (_ & Ho & Ht).
  destruct (step_groups_frame _ _ _ _ H1) as (_ & Hf).
  split; [symmetry; eapply Forall2_length; eauto |].
  split; [exact Ht |].
  clear H1 Ht. revert Hf. induction Ho as [| g g' gs gs' Hov _ IH]; intros Hf;
    [constructor |].
  apply Forall2_cons in Hf as [Hk Hf]. constructor; [| now apply IH].
  split; [exact Hk |]. split; [exact Hov |].
  intros Hnone. apply map_eq. intros k. apply Hk.
  unfold group_paths. rewrite Hnone. apply not_elem_of_nil.
Qed.

(** X12: a [step] that returns has advanced the index of every schedule
    object by the number of times the groups list it: by one for an object
    attached once, by two for an object shared by two groups, not at all for
    an object that is not attached. *)
Theorem step_advances_idx (c : option closure) (w w' : t S) (r : option loss)
    (l : loc) (sch : schedule) :
  step optim_step c w = Ok (w', r) ->
  heap w !! l = Some sch ->
  exists sch',
    heap w' !! l = Some sch'
    /\ schedule_idx sch'
       = (schedule_idx sch + attach_count l (param_groups (optim w)))%Z.
Proof.
  unfold step. intros H Hl.
  apply rbind_ok in H as ([h1 gs1] & H1 & [= <- _]).
  cbn [heap optim param_groups fst snd].
  eapply step_groups_idx; eauto.
Qed.

(** X14: handing the wrapper groups through the [param_groups] setter does
    not normalize them as the constructor does.  With a group whose
    [schedules] entry is a single schedule, not a list, placed after groups
    without schedules, the next [step] raises [TypeError], while the
    constructor takes that entry for the list of one schedule. *)
Theorem step_after_set_param_groups (c : option closure) (w : t S)
    (gs1 gs2 : list group) (g : group) (v : value) :
  Forall (fun g1 : group => g1 !! "schedules" = None) gs1 ->
  g !! "schedules" = Some v ->
  (forall vs, v <> VList vs) ->
  step optim_step c (set_param_groups (gs1 ++ g :: gs2) w) = Err TypeError
  /\ forall h,
       prime_group h g = step_each [v] h (<["schedules" := VList [v]]> g).
Proof.
  intros Hgs1 Hg Hv. split.
  - unfold step, set_param_groups. cbn [heap optim param_groups state].
    assert (E : step_groups (gs1 ++ g :: gs2) (heap w) = Err TypeError).
    { induction Hgs1 as [| g1 gs1 Hg1 _ IH]; cbn [app step_groups].
      - unfold step_group. rewrite Hg.
        destruct v as [| q | l | vs]; try reflexivity.
        now destruct (Hv vs).
      - unfold step_group at 1. rewrite Hg1. cbn [rbind fst snd].
        now rewrite IH. }
    now rewrite E.
  - intros h. unfold prime_group. rewrite Hg.
    destruct v as [| q | l | vs]; try reflexivity. now destruct (Hv vs).
Qed.

End WithInner.

(** X13: the constructor, when it returns, has advanced the index of every
    schedule object by the number of times the groups attach it, a single
    schedule counting as a list of one: an object attached to [n] groups
    leaves the constructor with its index advanced by [n]. *)
Theorem init_advances_idx {S : Type} (h : store) (o : optimizer S) (w : t S)
    (l : loc) (sch : schedule) :
  init h o = Ok w ->
  h !! l = Some sch ->
  exists sch',
    heap w !! l = Some sch'
    /\ schedule_idx sch' = (schedule_idx sch + init_count l (param_groups o))%Z.
Proof.
  unfold init. intros H Hl.
  apply rbind_ok in H as ([h1 gs1] & H1 & [= <-]).
  cbn [heap optim param_groups fst snd].
  eapply prime_groups_idx; eauto.
Qed.

End StepMore.

Section RunMore.
Import ScheduledOptimizer.

Lemma step_groups_iterable (gs : list group) :
  forall (h h' : store) (gs' : list group),
    step_groups gs h = Ok (h', gs') ->
    Forall (fun g : group =>
              g !! "schedules" = None
              \/ exists vs, g !! "schedules" = Some (VList vs)) gs.
Proof.
  induction gs as [| g gs IH]; intros h h' gs' H; cbn [step_groups] in H;
    [constructor |].
  apply rbind_ok in H as ([h1 g1] & H1 & H).
  apply rbind_ok in H as ([h2 gs2] & H2 & _). cbn [fst snd] in *.
  constructor; [| eapply IH; eauto].
  unfold step_group in H1. destruct (g !! "schedules") as [v |]; [| now left].
  apply rbind_ok in H1 as (vs & Hvs & _).
  destruct v as [| q | l0 | vs0]; try discriminate. right. eauto.
Qed.

Lemma attach_count_ext (l : loc) (gs gs1 : list group) :
  Forall2 (fun g g1 : group => g1 !! "schedules" = g !! "schedules") gs gs1 ->
  attach_count l gs1 = attach_count l gs.
Proof.
  induction 1 as [| g g1 gs gs1 E _ IH]; [reflexivity |].
  cbn [attach_count]. now rewrite E, IH.
Qed.

Section WithInner.
Context {S closure loss : Type}.
Variable optim_step : option closure -> list group -> S -> S * option loss.

(** X15: a training loop of [n] steps that returns has advanced the index
    of every schedule object by [n] times the number of its attachments:
    the lists of schedules stay what they were while the loop runs. *)
Theorem run_advances_idx (cs : list (option closure)) :
  forall (w w' : t S) (l : loc) (sch : schedule),
    run optim_step cs w = Ok w' ->
    heap w !! l = Some sch ->
    exists sch',
      heap w' !! l = Some sch'
      /\ schedule_idx sch'
         = (schedule_idx sch
            + Z.of_nat (length cs) * attach_count l (param_groups (optim w)))%Z.
Proof.
  induction cs as [| c cs IH]; intros w w' l sch H Hl; cbn [run] in H.
  { injection H as <-. exists sch. split; [exact Hl | cbn; lia]. }
  apply rbind_ok in H as ([w1 r] & H1 & H). cbn [fst] in H.
  pose proof H1 as H1'. unfold step in H1'.
  apply rbind_ok in H1' as ([h1 gs1] & Hg & [= <- _]). cbn [fst snd] in *.
  destruct (step_groups_idx _ _ _ _ Hg l sch Hl) as (sch1 & Hl1 & Hi1).
  destruct (IH _ _ l sch1 H Hl1) as (sch' & Hl' & Hi').
  exists sch'. split; [exact Hl' |].
  cbn [heap optim param_groups] in Hi'.
  destruct cs as [| c' cs].
  { cbn [length] in *. lia. }
  assert (E : attach_count l gs1 = attach_count l (param_groups (optim w))).
  { apply attach_count_ext.
    destruct (step_groups_evolves _ _ _ _ Hg) as (_ & Ho & _).
    cbn [run] in H. apply rbind_ok in H as ([w2 r2] & H2 & _).
    unfold step in H2. apply rbind_ok in H2 as ([h2 gs2] & Hg2 & _).
    cbn [heap optim param_groups] in Hg2.
    pose proof (step_groups_iterable _ _ _ _ Hg2) as Hit.
    clear -Ho Hit. induction Ho as [| g g1 gs gs1 Hov _ IH]; [constructor |].
    apply Forall_cons in Hit as [Hg1 Hit]. constructor; [| now apply IH].
    destruct (Hov "schedules") as [E | [q Hq]]; [exact E |].
    destruct Hg1 as [Hn | [vs Hvs]]; congruence. }
  rewrite E in Hi'. cbn [length] in *. lia.
Qed.

End WithInner.

End RunMore.

(** ** The further properties on the example wrappers *)

Section MoreExamples.
Import ScheduledOptimizer.

Lemma demo_wrapper_ok : init demo_heap demo_optim = Ok demo_wrapper.
Proof. vm_compute. reflexivity. Qed.

Lemma demo_run_ok : run demo_inner [None; None] demo_wrapper = Ok demo_run.
Proof. vm_compute. reflexivity. Qed.

Lemma demo_restored_ok :
  load_state_dict demo_saved demo_wrapper = Ok demo_restored.
Proof. vm_compute. reflexivity. Qed.

Lemma shared_wrapper_ok : init demo_heap shared_optim = Ok shared_wrapper.
Proof. vm_compute. reflexivity. Qed.

Lemma shared_stepped_ok :
  step demo_inner None shared_wrapper = Ok (shared_stepped, None).
Proof. vm_compute. reflexivity. Qed.

(** Loading into a wrapper one of whose groups has no schedules. *)
Lemma load_state_dict_needs_schedules_witness :
  load_state_dict ∅ {| heap := demo_heap; optim := mixed_optim |}
  = Err KeyError.
Proof.
  apply (load_state_dict_needs_schedules _ plain_group).
  - cbn. right. left.
  - vm_compute. reflexivity.
Defined.

(** Loading the state saved after two steps into the freshly constructed
    wrapper: the inner state is the saved one and the group count is
    kept. *)
Lemma load_state_dict_effect_witness :
  exists osd,
    sd_optim demo_saved = Ok osd
    /\ state (optim demo_restored) = sd_state osd
    /\ length (param_groups (optim demo_restored))
       = length (param_groups (optim demo_wrapper)).
Proof.
  destruct (load_state_dict_effect _ _ _ demo_restored_ok)
    as (osd & states & lrs & H1 & _ & _ & H2 & H3 & _).
  exists osd. auto.
Defined.

(** A step of the wrapper whose two groups share one schedule: the group
    count is kept and the index goes from 2 to 4. *)
Lemma step_frame_witness :
  length (param_groups (optim shared_stepped))
  = length (param_groups (optim shared_wrapper)).
Proof.
  exact (proj1 (step_frame demo_inner _ _ _ _ shared_stepped_ok)).
Defined.

Lemma step_advances_idx_witness :
  exists sch sch',
    heap shared_wrapper !! 0%nat = Some sch
    /\ heap shared_stepped !! 0%nat = Some sch'
    /\ schedule_idx sch = 2%Z
    /\ schedule_idx sch' = 4%Z.
Proof.
  eassert (H0 : heap shared_wrapper !! 0%nat = Some _)
    by (vm_compute; reflexivity).
  destruct (step_advances_idx demo_inner _ _ _ _ 0%nat _ shared_stepped_ok H0)
    as (sch' & Hl' & Hi').
  eexists _, sch'. split; [exact H0 |]. split; [exact Hl' |].
  split; [reflexivity |]. rewrite Hi'. vm_compute. reflexivity.
Defined.

(** The constructor on the two groups that share one schedule advances its
    index from 0 to 2. *)
Lemma init_advances_idx_witness :
  exists sch',
    heap shared_wrapper !! 0%nat = Some sch' /\ schedule_idx sch' = 2%Z.
Proof.
  destruct (init_advances_idx demo_heap shared_optim shared_wrapper 0%nat
              (Linear (LinearSchedule.init_default 100)) shared_wrapper_ok)
    as (sch' & Hl' & Hi').
  - vm_compute. reflexivity.
  - exists sch'. split; [exact Hl' |]. rewrite Hi'. vm_compute. reflexivity.
Defined.

(** Setting the groups of the constructed wrapper to a plain group followed
    by [demo_group], whose [schedules] is a single schedule. *)
Lemma step_after_set_param_groups_witness :
  step demo_inner None (set_param_groups [plain_group; demo_group] demo_wrapper)
  = Err TypeError.
Proof.
  apply (step_after_set_param_groups demo_inner None demo_wrapper
           [plain_group] [] demo_group (VRef 0)).
  - constructor; [vm_compute; reflexivity | constructor].
  - vm_compute. reflexivity.
  - intros vs. discriminate.
Defined.

(** Two steps after the construction on [demo_optim]: the index goes from
    1 to 3. *)
Lemma run_advances_idx_witness :
  exists sch sch',
    heap demo_wrapper !! 0%nat = Some sch
    /\ heap demo_run !! 0%nat = Some sch'
    /\ schedule_idx sch = 1%Z
    /\ schedule_idx sch' = 3%Z.
Proof.
  eassert (H0 : heap demo_wrapper !! 0%nat = Some _)
    by (vm_compute; reflexivity).
  destruct (run_advances_idx demo_inner _ _ _ 0%nat _ demo_run_ok H0)
    as (sch' & Hl' & Hi').
  eexists _, sch'. split; [exact H0 |]. split; [exact Hl' |].
  split; [reflexivity |]. rewrite Hi'. vm_compute. reflexivity.
Defined.

End MoreExamples.

Section InitMore.
Import ScheduledOptimizer.

(** X16: the constructor calls [step] on whatever the [schedules] entry
    holds.  When the first group that carries the entry has, as its first
    schedule, a value that is not a schedule object (a number, [None], a
    nested list, a reference to no object), the constructor raises
    [AttributeError]; an empty list of schedules is accepted and steps
    nothing. *)
Theorem init_rejects_non_schedule {S : Type} (h : store) (st : S)
    (gs1 gs2 : list group) (g : group) (v : value) (vs : list value) :
  Forall (fun g1 : group => g1 !! "schedules" = None) gs1 ->
  attached g = v :: vs ->
  (forall o, deref h v <> Ok o) ->
  init h {| param_groups := gs1 ++ g :: gs2; state := st |} = Err AttributeError
  /\ forall g0 : group,
       g0 !! "schedules" = Some (VList []) -> prime_group h g0 = Ok (h, g0).
Proof.
  intros Hgs1 Hatt Hv. split.
  - unfold init. cbn [param_groups state].
    assert (E : prime_groups (gs1 ++ g :: gs2) h = Err AttributeError).
    { induction Hgs1 as [| g1 gs1 Hg1 _ IH]; cbn [app prime_groups].
      - unfold prime_group. unfold attached in Hatt.
        destruct (g !! "schedules") as [v0 |]; [| discriminate].
        rewrite Hatt. cbn [step_each]. unfold call_step.
        destruct (deref h v) as [o | e] eqn:E; [now destruct (Hv o) |].
        assert (e = AttributeError) as ->.
        { unfold deref in E. destruct v as [| q | l | vs']; try congruence.
          destruct (h !! l); congruence. }
        reflexivity.
      - unfold prime_group at 1. rewrite Hg1. cbn [rbind fst snd].
        now rewrite IH. }
    now rewrite E.
  - intros g0 Hg0. unfold prime_group. rewrite Hg0. cbn [normalize step_each].
    f_equal. f_equal. apply insert_id. exact Hg0.
Qed.

(** A group whose [schedules] is the number 3. *)
Lemma init_rejects_non_schedule_witness :
  init demo_heap
    {| param_groups := [plain_group; <["schedules" := VNum 3]> plain_group];
       state := tt |}
  = Err AttributeError.
Proof.
  apply (init_rejects_non_schedule demo_heap tt [plain_group] []
           (<["schedules" := VNum 3]> plain_group) (VNum 3) []).
  - constructor; [vm_compute; reflexivity | constructor].
  - vm_compute. reflexivity.
  - intros o. discriminate.
Defined.

End InitMore.
